(** * HardenerAI: the hardening pipeline, embedded and verified

    Shallow embedding of the core of the repository:
    - [src/deduplication/grouper.ts]   (FindingGrouper)
    - [src/scoring/riskScorer.ts]      (RiskScorer)
    - [src/validation/validator.ts]    (Validator)
    - [src/safety/rollbackManager.ts]  (RollbackManager)
    - [src/orchestrator.ts]            (Orchestrator)

    Conventions of the model.
    - A JavaScript string is a [string] of 8-bit characters (ASCII text);
      [toLowerCase] acts on the letters A-Z, [trim] and the regular
      expression class [\s] on the characters 9-13 and 32.
    - A JavaScript number is an exact rational ([Q]); [Math.round] is
      [floor (x + 1/2)].  The one place where the source can produce [NaN]
      (a ratio [0 / 0]) is modelled by the type [jsnum].
    - The filesystem is explicit state ([FS]); every [fs.*] call of the
      source that can throw returns an [option] here, and the [try]/[catch]
      blocks of the source become [match]es on it. *)

From Stdlib Require Import Ascii String QArith Qround Sorted Lqa.
From stdpp Require Import gmap strings list fin_maps.

Open Scope string_scope.
Open Scope list_scope.

(* ===================================================================== *)
(** ** JavaScript strings *)
(* ===================================================================== *)

Module JsString.

Definition is_upper (c : ascii) : bool :=
  let n := nat_of_ascii c in (65 <=? n)%nat && (n <=? 90)%nat.

Definition lower_char (c : ascii) : ascii :=
  if is_upper c then ascii_of_nat (nat_of_ascii c + 32) else c.

(** [s.toLowerCase()] *)
Fixpoint toLowerCase (s : string) : string :=
  match s with
  | EmptyString => EmptyString
  | String c r => String (lower_char c) (toLowerCase r)
  end.

(** the class [\s], which is also what [trim] strips *)
Definition is_space (c : ascii) : bool :=
  let n := nat_of_ascii c in
  ((9 <=? n)%nat && (n <=? 13)%nat) || (n =? 32)%nat.

Fixpoint trimStart (s : string) : string :=
  match s with
  | EmptyString => EmptyString
  | String c r => if is_space c then trimStart r else s
  end.

Fixpoint rev_string_onto (s acc : string) : string :=
  match s with
  | EmptyString => acc
  | String c r => rev_string_onto r (String c acc)
  end.

Definition rev_string (s : string) : string := rev_string_onto s EmptyString.

(** [s.trim()] *)
Definition trim (s : string) : string :=
  rev_string (trimStart (rev_string (trimStart s))).

(** [s.includes(t)] *)
Fixpoint includes (s t : string) : bool :=
  String.prefix t s ||
  match s with
  | EmptyString => false
  | String _ r => includes r t
  end.

(** [s.split('\n')]: one more piece than there are newlines *)
Fixpoint split_onto (cur : string) (s : string) : list string :=
  match s with
  | EmptyString => [rev_string cur]
  | String c r =>
      if (nat_of_ascii c =? 10)%nat
      then rev_string cur :: split_onto EmptyString r
      else split_onto (String c cur) r
  end.

Definition split_lines (s : string) : list string := split_onto EmptyString s.

(** [parts.join(sep)] *)
Fixpoint join (sep : string) (parts : list string) : string :=
  match parts with
  | [] => EmptyString
  | [p] => p
  | p :: rest => p +:+ sep +:+ join sep rest
  end.

(** number of occurrences of a character: [(s.match(/c/g) || []).length] *)
Fixpoint count_char (c : ascii) (s : string) : nat :=
  match s with
  | EmptyString => 0
  | String d r => (if Ascii.eqb c d then 1 else 0) + count_char c r
  end.

(** [s.search(/\S/)]: index of the first non-space character, -1 if none *)
Fixpoint search_nonspace_from (i : Z) (s : string) : Z :=
  match s with
  | EmptyString => (-1)%Z
  | String c r => if is_space c then search_nonspace_from (i + 1)%Z r else i
  end.

Definition search_nonspace (s : string) : Z := search_nonspace_from 0%Z s.

End JsString.

Import JsString.

(* ===================================================================== *)
(** ** JavaScript numbers *)
(* ===================================================================== *)

(** [Math.round]: nearest integer, halves towards plus infinity. *)
Definition js_round (x : Q) : Z := Qfloor (x + (1 # 2))%Q.

Definition js_min (x y : Q) : Q := if Qle_bool x y then x else y.
Definition js_max (x y : Q) : Q := if Qle_bool x y then y else x.

(** A count divided by a count: [0 / 0] is [NaN], [n / 0] is [Infinity]. *)
Inductive jsnum : Type :=
| NaN
| PosInf
| Fin (q : Q).

Definition js_div (n m : nat) : jsnum :=
  match m, n with
  | O, O => NaN
  | O, S _ => PosInf
  | S _, _ => Fin (Z.of_nat n # Pos.of_nat m)
  end.

(** [x < c] for a finite constant [c]; every comparison with [NaN] is false. *)
Definition js_lt (x : jsnum) (c : Q) : bool :=
  match x with
  | NaN => false
  | PosInf => false
  | Fin q => negb (Qle_bool c q)
  end.

(* ===================================================================== *)
(** ** Data model ([src/types.ts]) *)
(* ===================================================================== *)

Inductive Severity : Type := critical | high | medium | low | info.

Definition severity_name (s : Severity) : string :=
  match s with
  | critical => "critical"
  | high => "high"
  | medium => "medium"
  | low => "low"
  | info => "info"
  end.

Record SecurityFinding : Type := mkFinding {
  f_id : string;
  tool : string;
  resource : string;
  title : string;
  description : string;
  severity : Severity;
  evidence : string;
  recommendation : string;
  confidence : Q;
  category : string
}.

(* ===================================================================== *)
(** ** FindingGrouper ([src/deduplication/grouper.ts]) *)
(* ===================================================================== *)

Module Grouper.

Record FindingGroup : Type := mkGroup {
  g_id : string;
  g_title : string;
  g_category : string;
  g_severity : Severity;
  count : nat;
  findings : list SecurityFinding;
  representativeFinding : SecurityFinding
}.

Record GroupingResult : Type := mkGrouping {
  groups : list FindingGroup;
  uniqueFindings : list SecurityFinding;
  duplicateCount : Z;
  noiseReductionPercent : Z
}.

(** [generateGroupKey]: tool, category, lower-cased trimmed title and
    severity, joined by a double colon. *)
Definition generateGroupKey (finding : SecurityFinding) : string :=
  join "::" [ tool finding;
              category finding;
              trim (toLowerCase (title finding));
              severity_name (severity finding) ].

(** The [Map<string, FindingGroup>] of the source keeps insertion order
    ([groups.values()]), so it is an association list here. *)
Definition GroupMap : Type := list (string * FindingGroup).

Fixpoint map_get (k : string) (m : GroupMap) : option FindingGroup :=
  match m with
  | [] => None
  | (k', g) :: r => if String.eqb k k' then Some g else map_get k r
  end.

(** mutation of the group stored under [k] (the object is updated in place) *)
Fixpoint map_update (k : string) (f : FindingGroup -> FindingGroup)
         (m : GroupMap) : GroupMap :=
  match m with
  | [] => []
  | (k', g) :: r =>
      if String.eqb k k' then (k', f g) :: r else (k', g) :: map_update k f r
  end.

Definition add_member (finding : SecurityFinding) (g : FindingGroup) : FindingGroup :=
  {| g_id := g_id g;
     g_title := g_title g;
     g_category := g_category g;
     g_severity := g_severity g;
     count := S (count g);
     findings := findings g ++ [finding];
     representativeFinding := representativeFinding g |}.

Definition new_group (groupKey : string) (finding : SecurityFinding) : FindingGroup :=
  {| g_id := "group-" +:+ groupKey;
     g_title := title finding;
     g_category := category finding;
     g_severity := severity finding;
     count := 1;
     findings := [finding];
     representativeFinding := finding |}.

(** one iteration of the [for (const finding of findings)] loop *)
Definition group_step (st : GroupMap * list SecurityFinding)
           (finding : SecurityFinding) : GroupMap * list SecurityFinding :=
  let '(gm, uniq) := st in
  let groupKey := generateGroupKey finding in
  match map_get groupKey gm with
  | Some _ => (map_update groupKey (add_member finding) gm, uniq)
  | None => (gm ++ [(groupKey, new_group groupKey finding)], uniq ++ [finding])
  end.

Definition group_loop (l : list SecurityFinding)
           (st : GroupMap * list SecurityFinding) : GroupMap * list SecurityFinding :=
  fold_left group_step l st.

Definition noise_percent (duplicates : Z) (total : nat) : Z :=
  match total with
  | O => 0%Z
  | S _ => js_round ((duplicates # Pos.of_nat total) * 100)%Q
  end.

Definition groupFindings (l : list SecurityFinding) : GroupingResult :=
  let '(gm, uniq) := group_loop l ([], []) in
  let duplicates := (Z.of_nat (length l) - Z.of_nat (length uniq))%Z in
  {| groups := snd <$> gm;
     uniqueFindings := uniq;
     duplicateCount := duplicates;
     noiseReductionPercent := noise_percent duplicates (length l) |}.

(** [filterLowConfidence] *)
Definition filterLowConfidence (l : list SecurityFinding) (threshold : Q)
  : list SecurityFinding :=
  List.filter (fun f => Qle_bool threshold (confidence f)) l.

(** [suppressBelowThreshold]: the findings carry an optional numeric
    [riskScore]; [!f.riskScore] holds when the score is missing and also
    when it is 0. *)
Record ScoredFinding : Type := mkScored {
  sf_finding : SecurityFinding;
  sf_riskScore : option Q
}.

Definition keep_scored (threshold : Q) (f : ScoredFinding) : bool :=
  match sf_riskScore f with
  | None => true
  | Some score => if Qeq_bool score 0 then true else Qle_bool threshold score
  end.

Definition suppressBelowThreshold (l : list ScoredFinding) (threshold : Q)
  : list ScoredFinding :=
  List.filter (keep_scored threshold) l.

End Grouper.

(* ===================================================================== *)
(** ** RiskScorer ([src/scoring/riskScorer.ts]) *)
(* ===================================================================== *)

Module Scorer.

Local Open Scope Q_scope.

Record Weighted : Type := mkWeighted { weight : Q; label : string }.

Module ATTACK_COMPLEXITY.
Definition LOW := mkWeighted 1.0 "Trivial to exploit".
Definition MEDIUM := mkWeighted 0.7 "Moderate skill required".
Definition HIGH := mkWeighted 0.4 "Expert skill required".
End ATTACK_COMPLEXITY.

Module PRIVILEGES_REQUIRED.
Definition NONE := mkWeighted 1.0 "No privileges needed".
Definition LOW := mkWeighted 0.6 "Basic user access required".
Definition HIGH := mkWeighted 0.3 "Admin privileges required".
End PRIVILEGES_REQUIRED.

Module USER_INTERACTION.
Definition NONE := mkWeighted 1.0 "Fully automated".
Definition REQUIRED := mkWeighted 0.6 "User action needed".
End USER_INTERACTION.

Module SCOPE.
Definition CHANGED := mkWeighted 1.2 "Can affect other components".
Definition UNCHANGED := mkWeighted 1.0 "Isolated to vulnerable component".
End SCOPE.

Record CVSSModifiers : Type := mkCVSS {
  attackComplexity : Q;
  privilegesRequired : Q;
  userInteraction : Q;
  scope : Q;
  attackComplexityLabel : string;
  privilegesLabel : string;
  userInteractionLabel : string
}.

(** The numeric fields of [RiskScore]; [temporalScore] is the value the
    source prints into [factors.temporalScore].  The [reasoning] text and
    the boolean [factors] are display fields derived from the same
    numbers and are not modelled. *)
Record RiskScore : Type := mkRiskScore {
  overall : Z;
  exploitLikelihood : Q;
  businessImpact : Q;
  rs_confidence : Q;
  temporalScore : Q;
  rs_attackComplexity : string;
  rs_privilegesRequired : string;
  rs_userInteraction : string
}.

(** [score += w] under a condition *)
Definition bump (cond : bool) (w : Q) (score : Q) : Q :=
  if cond then score + w else score.

Definition calculateCVSSModifiers (finding : SecurityFinding) : CVSSModifiers :=
  let evidence := toLowerCase (evidence finding) in
  let description := toLowerCase (description finding) in
  let attackComplexity :=
    if includes description "chained" || includes description "multiple steps"
    then ATTACK_COMPLEXITY.HIGH
    else if includes description "authenticated" || includes description "requires"
    then ATTACK_COMPLEXITY.MEDIUM
    else ATTACK_COMPLEXITY.LOW in
  let privilegesRequired :=
    if includes description "admin" || includes description "root"
       || includes evidence "cluster-admin"
    then PRIVILEGES_REQUIRED.HIGH
    else if includes description "authenticated" || includes description "user"
    then PRIVILEGES_REQUIRED.LOW
    else PRIVILEGES_REQUIRED.NONE in
  let userInteraction :=
    if includes description "click" || includes description "user action"
       || includes description "manual"
    then USER_INTERACTION.REQUIRED
    else USER_INTERACTION.NONE in
  let scope :=
    if includes description "cluster" || includes description "lateral"
       || includes description "pivot" || includes description "escape"
    then SCOPE.CHANGED
    else SCOPE.UNCHANGED in
  {| attackComplexity := weight attackComplexity;
     privilegesRequired := weight privilegesRequired;
     userInteraction := weight userInteraction;
     scope := weight scope;
     attackComplexityLabel := label attackComplexity;
     privilegesLabel := label privilegesRequired;
     userInteractionLabel := label userInteraction |}.

Definition calculateTemporalScore (finding : SecurityFinding) : Q :=
  let score := 5.0 in
  let description := toLowerCase (description finding) in
  let category := toLowerCase (category finding) in
  (* exploit code maturity *)
  let score :=
    if includes description "poc available" || includes description "exploit"
    then score + 2.0
    else if includes description "theoretical" || includes description "no known"
    then score - 1.0
    else score in
  (* remediation level *)
  let score :=
    bump (includes category "docker" && includes description "latest tag") 1.0 score in
  let score :=
    bump (includes description "no patch" || includes description "cannot fix") 1.5 score in
  (* report confidence *)
  let score := bump (Qle_bool 0.9 (confidence finding)) 0.5 score in
  js_max 0 (js_min 10 score).

Definition exploit_severityMultiplier (s : Severity) : Q :=
  match s with
  | critical => 1.9
  | high => 1.4
  | medium => 0.85
  | low => 0.55
  | info => 0.35
  end.

Definition exploit_categoryMultiplier (cat : string) : Q :=
  if includes cat "kubernetes-rbac" then 1.3
  else if includes cat "docker-security" then 1.2
  else if includes cat "nginx-security" then 1.1
  else 1.0.

Definition calculateExploitLikelihood (finding : SecurityFinding) : Q :=
  let score := 0 in
  let evidence := toLowerCase (evidence finding) in
  let description := toLowerCase (description finding) in
  let title := toLowerCase (title finding) in
  (* network exposure *)
  let score :=
    if includes evidence "0.0.0.0" || includes evidence "internet-facing"
    then score + 4.5
    else if includes evidence "publicly accessible" || includes evidence "external"
    then score + 3.8
    else if includes evidence "127.0.0.1" || includes evidence "localhost"
    then score + 0.5
    else score in
  (* authentication weaknesses *)
  let score :=
    bump (includes description "no authentication"
          || includes description "unauthenticated"
          || includes evidence "anonymous"
          || includes title "unauthenticated") 4.2 score in
  let score :=
    bump (includes evidence "default password"
          || includes description "default credential"
          || includes evidence "admin:admin"
          || includes evidence "root:root") 4.8 score in
  (* container escape vectors *)
  let score :=
    bump (includes description "privileged"
          || includes evidence "privileged: true"
          || includes evidence "--privileged") 3.5 score in
  let score :=
    bump (includes description "hostnetwork"
          || includes evidence "hostNetwork: true"
          || includes description "hostpath") 3.2 score in
  let score :=
    bump (includes description "hostipc" || includes description "hostpid") 3.0 score in
  (* encryption weaknesses *)
  let score :=
    bump ((includes description "tls" || includes description "ssl")
          && (includes evidence "false" || includes evidence "disabled"
              || includes description "not enabled")) 3.8 score in
  let score :=
    bump (includes description "weak cipher" || includes description "sslv3") 3.5 score in
  (* privilege elevation *)
  let score :=
    bump (includes description "root"
          || includes evidence "user: root"
          || includes evidence "uid: 0"
          || includes evidence "runAsNonRoot: false") 2.8 score in
  let score :=
    bump (includes description "sudo" || includes description "setuid") 3.0 score in
  (* high-impact vulnerability types *)
  let score :=
    bump (includes description "rce"
          || includes description "remote code execution") 5.5 score in
  let score :=
    bump (includes description "sql injection" || includes description "sqli") 5.0 score in
  let score :=
    bump (includes description "command injection"
          || includes description "shell injection") 5.2 score in
  let score :=
    bump (includes description "path traversal"
          || includes description "directory traversal") 4.0 score in
  let score :=
    bump (includes description "xxe"
          || includes description "xml external entity") 4.2 score in
  let score :=
    bump (includes description "ssrf"
          || includes description "server-side request forgery") 4.5 score in
  (* resource access *)
  let score :=
    bump (includes description "secrets" || includes evidence "secret") 3.5 score in
  let score :=
    bump (includes description "cluster-admin"
          || includes evidence "cluster-admin") 4.0 score in
  let score :=
    bump (includes description "latest tag" || includes evidence ":latest") 1.5 score in
  let severityMultiplier := exploit_severityMultiplier (severity finding) in
  let categoryMultiplier := exploit_categoryMultiplier (category finding) in
  let finalScore := score * severityMultiplier * categoryMultiplier in
  js_min 10 (js_max 0 finalScore).

Definition impact_severityBonus (s : Severity) : Q :=
  match s with
  | critical => 2
  | high => 1
  | medium => 0
  | low => -1
  | info => -2
  end.

Definition calculateBusinessImpact (finding : SecurityFinding) : Q :=
  let score := 0 in
  let description := toLowerCase (description finding) in
  let score :=
    bump (includes description "secret"
          || includes description "credential"
          || includes description "api key"
          || includes description "token") 5 score in
  let score :=
    bump (includes description "data breach"
          || includes description "data exfiltration"
          || includes description "data leak") 5 score in
  let score :=
    bump (includes description "ransomware" || includes description "crypto") 5 score in
  let score :=
    bump (includes description "availability"
          || includes description "downtime"
          || includes description "denial of service") 4 score in
  let score :=
    bump (includes description "compliance"
          || includes description "gdpr"
          || includes description "hipaa"
          || includes description "pci-dss") 4 score in
  let score :=
    bump (includes description "lateral movement"
          || includes description "pivot"
          || includes description "cluster-admin") 4.5 score in
  let score :=
    bump (includes description "etcd" || includes description "control plane") 5 score in
  let severityBonus := impact_severityBonus (severity finding) in
  let finalScore := score + severityBonus in
  js_max 0 (js_min 10 finalScore).

(** [Math.round(x * 10) / 10] *)
Definition round1 (x : Q) : Q := inject_Z (js_round (x * 10)) / 10.

Definition clamp_overall (n : Z) : Z := Z.min 100 (Z.max 0 n).

Definition scoreFind (finding : SecurityFinding) : RiskScore :=
  let exploitLikelihood := calculateExploitLikelihood finding in
  let businessImpact := calculateBusinessImpact finding in
  let confidence := confidence finding * 5 in
  let cvssModifiers := calculateCVSSModifiers finding in
  let temporalScore := calculateTemporalScore finding in
  let adjustedExploit :=
    exploitLikelihood * attackComplexity cvssModifiers
                      * privilegesRequired cvssModifiers in
  let adjustedImpact := businessImpact * scope cvssModifiers in
  let compositeScore :=
    (adjustedExploit * 0.45 + adjustedImpact * 0.40
     + confidence * 0.10 + temporalScore * 0.05) / 10 in
  let overall := js_round (compositeScore * 100) in
  {| overall := clamp_overall overall;
     exploitLikelihood := round1 adjustedExploit;
     businessImpact := round1 adjustedImpact;
     rs_confidence := round1 confidence;
     temporalScore := temporalScore;
     rs_attackComplexity := attackComplexityLabel cvssModifiers;
     rs_privilegesRequired := privilegesLabel cvssModifiers;
     rs_userInteraction := userInteractionLabel cvssModifiers |}.

(** The [factors] that [extractFactors] derives.  The six flags are always
    assigned; [dataExposure], [downtime], [complianceRisk] and
    [lateralMovement] are keys that the source sets to [true] or leaves
    out ([false] here), [networkExposure] and [blastRadius] are optional
    strings. *)
Record Factors : Type := mkFactors {
  internetExposed : bool;
  weakAuth : bool;
  defaultCreds : bool;
  privilegedContainer : bool;
  hostNetwork : bool;
  missingTls : bool;
  networkExposure : option string;
  dataExposure : bool;
  downtime : bool;
  complianceRisk : bool;
  lateralMovement : bool;
  blastRadius : option string
}.

Definition extractFactors (finding : SecurityFinding) : Factors :=
  let evidence := toLowerCase (evidence finding) in
  let description := toLowerCase (description finding) in
  {| internetExposed :=
       includes evidence "0.0.0.0" || includes evidence "internet-facing";
     weakAuth :=
       includes description "authentication" || includes description "no auth";
     defaultCreds :=
       includes evidence "default" || includes description "default credential";
     privilegedContainer :=
       includes description "privileged" || includes evidence "privileged: true";
     hostNetwork :=
       includes description "hostnetwork" || includes evidence "hostNetwork";
     missingTls := includes description "tls" && includes evidence "false";
     networkExposure :=
       if includes evidence "0.0.0.0" then Some "0.0.0.0"
       else if includes evidence "127.0.0.1" then Some "localhost-only"
       else if includes evidence "private" then Some "private-only"
       else None;
     dataExposure :=
       includes description "secret" || includes description "credential";
     downtime :=
       includes description "availability" || includes description "downtime";
     complianceRisk :=
       includes description "compliance" || includes description "pci"
       || includes description "hipaa";
     lateralMovement := includes description "lateral movement";
     blastRadius :=
       if includes description "cluster" then Some "cluster"
       else if includes description "namespace" then Some "namespace"
       else if includes description "pod" then Some "pod"
       else None |}.

End Scorer.

(* ===================================================================== *)
(** ** Patches and the Validator ([src/validation/validator.ts]) *)
(* ===================================================================== *)

Inductive PatchType : Type := nginx | docker | kubernetes | custom.

Definition patch_type_name (t : PatchType) : string :=
  match t with
  | nginx => "nginx"
  | docker => "docker"
  | kubernetes => "kubernetes"
  | custom => "custom"
  end.

(** [SecurityPatch]; the descriptive fields that no modelled function reads
    ([assumptions], [rollbackSteps], [validationSteps], [safetyNotes],
    [appliedAt]) are left out. *)
Record SecurityPatch : Type := mkPatch {
  p_id : string;
  findingId : string;
  p_resource : string;
  p_type : PatchType;
  before : string;
  after : string;
  diff : string;
  applied : bool
}.

Record ValidationResult : Type := mkValidation {
  v_patchId : string;
  passed : bool;
  v_message : string
}.

Module Validator.

(** the prefix [kw] of [s], compared without regard to case *)
Fixpoint strip_prefix_ci (kw s : string) : option string :=
  match kw, s with
  | EmptyString, _ => Some s
  | String a kw', String b s' =>
      if Ascii.eqb (lower_char a) (lower_char b)
      then strip_prefix_ci kw' s' else None
  | String _ _, EmptyString => None
  end.

(** [/^kw\s+/i.test(line)] *)
Definition keyword_space (kw line : string) : bool :=
  match strip_prefix_ci kw line with
  | Some (String c _) => is_space c
  | _ => false
  end.

Definition directives : list string :=
  [ "RUN"; "CMD"; "ENTRYPOINT"; "COPY"; "ADD"; "WORKDIR"; "USER";
    "EXPOSE"; "ENV"; "ARG"; "HEALTHCHECK"; "ONBUILD"; "LABEL" ].

(** [/^(RUN|CMD|...|LABEL)\s+/i.test(line)] *)
Definition directive_space (line : string) : bool :=
  existsb (fun kw => keyword_space kw line) directives.

Definition validateNginx (patch : SecurityPatch) : ValidationResult :=
  let hasBalancedBraces :=
    (count_char "{"%char (after patch) =? count_char "}"%char (after patch))%nat in
  if negb hasBalancedBraces then
    mkValidation (p_id patch) false "Nginx config syntax error: unbalanced braces"
  else if (String.length (trim (after patch)) =? 0)%nat then
    mkValidation (p_id patch) false "Nginx config is empty"
  else
    mkValidation (p_id patch) true "Nginx config is valid".

Definition invalidDirectives (afterLines : list string) : list string :=
  List.filter (fun line => directive_space line && negb (includes line " "))
              afterLines.

Definition validateDocker (patch : SecurityPatch) : ValidationResult :=
  let afterLines := split_lines (after patch) in
  let hasFrom := existsb (fun line => keyword_space "FROM" line) afterLines in
  if negb hasFrom then
    mkValidation (p_id patch) false "Dockerfile must have FROM directive"
  else
    let invalid := invalidDirectives afterLines in
    if (0 <? length invalid)%nat then
      mkValidation (p_id patch) false
        ("Dockerfile has invalid directives: " +:+ join ", " invalid)
    else
      mkValidation (p_id patch) true "Dockerfile syntax valid".

(** the indentation loop: the first non-blank line with odd indentation *)
Fixpoint first_bad_indent (lines : list string) : option string :=
  match lines with
  | [] => None
  | line :: rest =>
      if (String.length (trim line) =? 0)%nat then first_bad_indent rest
      else if negb (Z.rem (search_nonspace line) 2 =? 0)%Z then Some line
      else first_bad_indent rest
  end.

Definition validateKubernetes (patch : SecurityPatch) : ValidationResult :=
  let lines := split_lines (after patch) in
  let hasKind := existsb (fun line => keyword_space "kind:" line) lines in
  if negb hasKind then
    mkValidation (p_id patch) false "Kubernetes manifest must have kind field"
  else
    match first_bad_indent lines with
    | Some line =>
        mkValidation (p_id patch) false
          ("Kubernetes manifest has invalid indentation at: "
             +:+ String.substring 0 50 line)
    | None =>
        mkValidation (p_id patch) true "Kubernetes manifest syntax valid"
    end.

Definition validatePatch (patch : SecurityPatch) : ValidationResult :=
  match p_type patch with
  | nginx => validateNginx patch
  | docker => validateDocker patch
  | kubernetes => validateKubernetes patch
  | custom =>
      mkValidation (p_id patch) false
        ("Unknown patch type: " +:+ patch_type_name (p_type patch))
  end.

End Validator.

(* ===================================================================== *)
(** ** The filesystem *)
(* ===================================================================== *)

Record SnapshotEntry : Type := mkEntry {
  patchId : string;
  e_resource : string;
  originalContent : string
}.

(** [Snapshot] (the timestamp is left out); the source calls the list of
    entries [patches]. *)
Record Snapshot : Type := mkSnapshot {
  s_id : string;
  s_patches : list SnapshotEntry
}.

(** [RollbackResult]; the message embeds the platform's error text and is
    left out, like the timestamp. *)
Record RollbackResult : Type := mkRollbackResult {
  r_patchId : string;
  success : bool
}.

Record RollbackRecord : Type := mkRollbackRecord {
  h_snapshotId : string;
  successRate : jsnum;
  details : list RollbackResult
}.

(** The state of the disk as the pipeline sees it.
    - [files]: the text of every existing target resource, as
      [fs.readFile(path, 'utf-8')] returns it;
    - [unreadable], [unwritable]: the paths on which a read, respectively a
      write, throws (permissions, a missing directory); a path that is
      absent from [files] is unreadable too, and writing it creates it;
    - [snapshots]: the documents [snapshots/<id>/snapshot.json], as
      [JSON.parse] returns them; [snapshotDirWritable] says whether [mkdir]
      and the write of a snapshot document succeed;
    - [history]: the [rollbacks] array of [history.json] ([None] when the
      file is missing or corrupt); [historyWritable] says whether it can be
      written. *)
Record FS : Type := mkFS {
  files : gmap string string;
  unreadable : gset string;
  unwritable : gset string;
  snapshots : gmap string Snapshot;
  snapshotDirWritable : bool;
  history : option (list RollbackRecord);
  historyWritable : bool
}.

Definition set_files (m : gmap string string) (fs : FS) : FS :=
  mkFS m (unreadable fs) (unwritable fs) (snapshots fs)
       (snapshotDirWritable fs) (history fs) (historyWritable fs).

Definition set_snapshots (m : gmap string Snapshot) (fs : FS) : FS :=
  mkFS (files fs) (unreadable fs) (unwritable fs) m
       (snapshotDirWritable fs) (history fs) (historyWritable fs).

Definition set_history (h : option (list RollbackRecord)) (fs : FS) : FS :=
  mkFS (files fs) (unreadable fs) (unwritable fs) (snapshots fs)
       (snapshotDirWritable fs) h (historyWritable fs).

(** [await fs.readFile(path, 'utf-8')]; [None] when it throws *)
Definition readFile (fs : FS) (path : string) : option string :=
  if decide (path ∈ unreadable fs) then None else files fs !! path.

(** [await fs.writeFile(path, content)]; [None] when it throws *)
Definition writeFile (fs : FS) (path content : string) : option FS :=
  if decide (path ∈ unwritable fs) then None
  else Some (set_files (<[path := content]> (files fs)) fs).

(* ===================================================================== *)
(** ** RollbackManager ([src/safety/rollbackManager.ts]) *)
(* ===================================================================== *)

Module RollbackManager.

(** the loop of [createSnapshot]: a resource that cannot be read is
    skipped (the [catch] only warns) *)
Fixpoint snapshotEntries (patches : list SecurityPatch) (fs : FS)
  : list SnapshotEntry :=
  match patches with
  | [] => []
  | patch :: rest =>
      match readFile fs (p_resource patch) with
      | Some content =>
          mkEntry (p_id patch) (p_resource patch) content
            :: snapshotEntries rest fs
      | None => snapshotEntries rest fs
      end
  end.

(** [createSnapshot(patches)].  The random identifier is drawn by the
    caller of the model ([snapshotId]); the result is [None] when [mkdir]
    or the write of the document throws, and the new disk otherwise (the
    returned identifier is then [snapshotId]). *)
Definition createSnapshot (snapshotId : string) (patches : list SecurityPatch)
           (fs : FS) : option FS :=
  if snapshotDirWritable fs then
    let snapshot := mkSnapshot snapshotId (snapshotEntries patches fs) in
    Some (set_snapshots (<[snapshotId := snapshot]> (snapshots fs)) fs)
  else None.

(** the [results.filter(r => r.success).length / results.length] of
    [recordRollback] *)
Definition rollbackSuccessRatio (results : list RollbackResult) : jsnum :=
  js_div (length (List.filter success results)) (length results).

(** [recordRollback]: never throws; a history that cannot be read counts
    as empty, a history that cannot be written is left as it is. *)
Definition recordRollback (snapshotId : string) (results : list RollbackResult)
           (fs : FS) : FS :=
  let rollbacks := default [] (history fs) in
  let record := mkRollbackRecord snapshotId (rollbackSuccessRatio results) results in
  if historyWritable fs then set_history (Some (rollbacks ++ [record])) fs
  else fs.

(** the loop of [rollback] over the entries of the snapshot *)
Fixpoint restoreEntries (items : list SnapshotEntry) (fs : FS)
  : list RollbackResult * FS :=
  match items with
  | [] => ([], fs)
  | item :: rest =>
      match writeFile fs (e_resource item) (originalContent item) with
      | Some fs' =>
          let '(results, fs'') := restoreEntries rest fs' in
          (mkRollbackResult (patchId item) true :: results, fs'')
      | None =>
          let '(results, fs'') := restoreEntries rest fs in
          (mkRollbackResult (patchId item) false :: results, fs'')
      end
  end.

(** [rollback(snapshotId)] *)
Definition rollback (snapshotId : string) (fs : FS) : list RollbackResult * FS :=
  match snapshots fs !! snapshotId with
  | Some snapshot =>
      let '(results, fs') := restoreEntries (s_patches snapshot) fs in
      (results, recordRollback snapshotId results fs')
  | None => ([mkRollbackResult "unknown" false], fs)
  end.

(** What a stored [successRate] adds to the sum of [getRollbackStats]:
    [JSON.stringify] writes [NaN] and [Infinity] as [null], and [null]
    adds as 0. *)
Definition stored_rate (r : jsnum) : Q :=
  match r with
  | Fin q => q
  | NaN | PosInf => 0
  end.

Record RollbackStats : Type := mkStats {
  stats_successRate : Q;
  totalRollbacks : nat
}.

(** [getRollbackStats()]: the mean of the recorded rates; a perfect rate
    and no rollback when the history is missing, corrupt or empty. *)
Definition getRollbackStats (fs : FS) : RollbackStats :=
  match history fs with
  | None => mkStats 1.0 0
  | Some rollbacks =>
      match length rollbacks with
      | O => mkStats 1.0 0
      | S _ =>
          let total :=
            fold_left (fun sum r => sum + stored_rate (successRate r))%Q
                      rollbacks 0%Q in
          mkStats (total / inject_Z (Z.of_nat (length rollbacks)))
                  (length rollbacks)
      end
  end.

End RollbackManager.

(* ===================================================================== *)
(** ** Orchestrator ([src/orchestrator.ts]) *)
(* ===================================================================== *)

Module Orchestrator.

Import Grouper Scorer RollbackManager.

Record OrchestratorOptions : Type := mkOptions {
  target : string;
  dryRun : bool;
  apply : bool;
  enableRollback : bool
}.

Inductive Status : Type :=
| pending | patched | ignored | requires_manual_review | grouped.

Record PrioritizedFinding : Type := mkPrioritized {
  pf_finding : SecurityFinding;
  riskScore : RiskScore;
  status : Status
}.

Record ReportStatistics : Type := mkStatistics {
  totalFindings : nat;
  st_uniqueFindings : nat;
  duplicateFindings : Z;
  byCategory : gmap string nat;
  bySeverity : gmap string nat;
  criticalCount : nat;
  highCount : nat;
  mediumCount : nat;
  lowCount : nat;
  patchedCount : nat;
  validationPassRate : Q;
  rollbackSuccessRate : Q;
  st_noiseReductionPercent : Z;
  groupCount : nat
}.

(** [HardeningReport] (run id and timestamp are left out) *)
Record HardeningReport : Type := mkReport {
  rp_target : string;
  rp_findings : list SecurityFinding;
  groupedFindings : list FindingGroup;
  prioritizedPlan : list PrioritizedFinding;
  rp_patches : list SecurityPatch;
  validationResults : list ValidationResult;
  rollbackResults : list RollbackResult;
  statistics : ReportStatistics
}.

(** The lines that steps 5 and 6 of [harden] print on the console. *)
Inductive LogLine : Type :=
| LogApplying                       (* Step 5: Applying patches... *)
| LogCreatingSnapshot               (* Creating snapshot for rollback... *)
| LogSnapshotId (snapshotId : string)
| LogApplied (n : nat)              (* Applied n patches *)
| LogRollbackTriggered              (* Step 6: Rollback triggered ... *)
| LogRolledBack (n : nat)           (* Rolled back n changes *)
| LogDryRun.                        (* Step 5: Dry-run mode *)

(** [Array.prototype.sort(compare)]: ECMAScript requires a stable sort, and
    for a consistent comparator the result is then unique; it is computed
    here by insertion from the right. *)
Section Sort.
Context {A : Type} (compare : A -> A -> Z).

Fixpoint sort_insert (x : A) (l : list A) : list A :=
  match l with
  | [] => [x]
  | y :: r =>
      if (compare x y <=? 0)%Z then x :: y :: r else y :: sort_insert x r
  end.

Fixpoint array_sort (l : list A) : list A :=
  match l with
  | [] => []
  | x :: r => sort_insert x (array_sort r)
  end.
End Sort.

Definition prioritize (finding : SecurityFinding) : PrioritizedFinding :=
  {| pf_finding := finding; riskScore := scoreFind finding; status := pending |}.

(** the comparator [(a, b) => b.riskScore.overall - a.riskScore.overall] *)
Definition byRiskDescending (a b : PrioritizedFinding) : Z :=
  (overall (riskScore b) - overall (riskScore a))%Z.

Definition scoreFindings (findings : list SecurityFinding)
  : list PrioritizedFinding :=
  let prioritized := prioritize <$> findings in
  array_sort byRiskDescending prioritized.

(** [Promise.all(patches.map(validatePatch))] *)
Definition validatePatches (patches : list SecurityPatch)
  : list ValidationResult :=
  Validator.validatePatch <$> patches.

Definition mark_applied (patch : SecurityPatch) : SecurityPatch :=
  {| p_id := p_id patch; findingId := findingId patch;
     p_resource := p_resource patch; p_type := p_type patch;
     before := before patch; after := after patch; diff := diff patch;
     applied := true |}.

(** [applyPatches]: the boolean it returns, the patches with their
    [applied] flags (the source sets the flag on the patch object itself)
    and the disk afterwards. *)
Fixpoint applyPatches (patches : list SecurityPatch) (fs : FS)
  : bool * list SecurityPatch * FS :=
  match patches with
  | [] => (true, [], fs)
  | patch :: rest =>
      match writeFile fs (p_resource patch) (after patch) with
      | Some fs' =>
          let '(ok, rest', fs'') := applyPatches rest fs' in
          (ok, mark_applied patch :: rest', fs'')
      | None => (false, patch :: rest, fs)
      end
  end.

(** [(counts[key] || 0) + 1] *)
Definition tally (key : string) (counts : gmap string nat) : gmap string nat :=
  <[key := default 0%nat (counts !! key) + 1]> counts.

Definition ratio_or_one (k n : nat) : Q :=
  match n with
  | O => 1.0%Q
  | S _ => Z.of_nat k # Pos.of_nat n
  end.

Definition computeStatistics (groupingResult : GroupingResult)
           (findings : list SecurityFinding) (patches : list SecurityPatch)
           (validationResults : list ValidationResult)
           (rollbackResults : list RollbackResult) : ReportStatistics :=
  let byCategory :=
    fold_left (fun m f => tally (category f) m) (uniqueFindings groupingResult) ∅ in
  let bySeverity :=
    fold_left (fun m f => tally (severity_name (severity f)) m)
              (uniqueFindings groupingResult) ∅ in
  {| totalFindings := length findings;
     st_uniqueFindings := length (uniqueFindings groupingResult);
     duplicateFindings := duplicateCount groupingResult;
     byCategory := byCategory;
     bySeverity := bySeverity;
     criticalCount := default 0%nat (bySeverity !! "critical");
     highCount := default 0%nat (bySeverity !! "high");
     mediumCount := default 0%nat (bySeverity !! "medium");
     lowCount := default 0%nat (bySeverity !! "low");
     patchedCount := length (List.filter applied patches);
     validationPassRate :=
       ratio_or_one (length (List.filter passed validationResults))
                    (length validationResults);
     rollbackSuccessRate :=
       ratio_or_one (length (List.filter success rollbackResults))
                    (length rollbackResults);
     st_noiseReductionPercent := noiseReductionPercent groupingResult;
     groupCount := length (groups groupingResult) |}.

(** What a run of [harden] ends with: the report it returns, or the
    exception it rethrows; in both cases the disk and the console lines
    of steps 5 and 6. *)
Inductive Outcome : Type :=
| Returned (report : HardeningReport) (fs : FS) (log : list LogLine)
| Thrown (fs : FS) (log : list LogLine).

(** the truthiness of a string: [''] is falsy *)
Definition truthy (s : string) : bool := negb (String.eqb s "").

(** [harden(options)], from step 1.5 on: [findings] is what the scan
    returned and [patches] what the patch engine generated for them (the
    readers and the templates are inputs of this model, the report renderer
    and the run history its consumers).  [fs] is the disk as it is when
    step 5 starts, which need not be the disk the patches were generated
    from; [snapshotId] is the identifier that [createSnapshot] draws when
    it is called.  A throwing [createSnapshot] is the one exception that
    steps 1.5 to 6 can raise. *)
Definition harden (options : OrchestratorOptions)
           (findings : list SecurityFinding) (patches : list SecurityPatch)
           (snapshotId : string) (fs : FS) : Outcome :=
  let groupingResult := groupFindings findings in
  let prioritizedPlan := scoreFindings (uniqueFindings groupingResult) in
  let validationResults := validatePatches patches in
  let validationPassRate :=
    js_div (length (List.filter passed validationResults))
           (length validationResults) in
  let finish patches rollbackResults fs log :=
    Returned
      {| rp_target := target options;
         rp_findings := findings;
         groupedFindings := groups groupingResult;
         prioritizedPlan := prioritizedPlan;
         rp_patches := patches;
         validationResults := validationResults;
         rollbackResults := rollbackResults;
         statistics :=
           computeStatistics groupingResult findings patches
                             validationResults rollbackResults |}
      fs log in
  if apply options && negb (dryRun options) then
    let snapshotStep :=
      if enableRollback options then
        match createSnapshot snapshotId patches fs with
        | Some fs1 =>
            Some (snapshotId, fs1, [LogCreatingSnapshot; LogSnapshotId snapshotId])
        | None => None
        end
      else Some ("", fs, []) in
    match snapshotStep with
    | None => Thrown fs [LogApplying; LogCreatingSnapshot]
    | Some (sid, fs1, log1) =>
        let '(_, patches', fs2) := applyPatches patches fs1 in
        let log2 := LogApplying :: log1 ++ [LogApplied (length patches)] in
        if enableRollback options && js_lt validationPassRate 1.0%Q && truthy sid then
          let '(rollbackResults, fs3) := rollback sid fs2 in
          finish patches' rollbackResults fs3
                 (log2 ++ [LogRollbackTriggered;
                           LogRolledBack (length rollbackResults)])
        else finish patches' [] fs2 log2
    end
  else finish patches [] fs [LogDryRun].

End Orchestrator.

(* ===================================================================== *)
(** ** PatchEngine ([src/patching/patchEngine.ts]) *)
(* ===================================================================== *)

Module PatchEngine.

(** A [PatchTemplate].  The template tables of the source are text
    rewritings by regular expressions; [generatePatches] is modelled over
    any list of templates.  [generatePatch] returns [None] for [null]. *)
Record PatchTemplate : Type := mkTemplate {
  t_id : string;
  findingPattern : SecurityFinding -> bool;
  t_type : PatchType;
  generatePatch : SecurityFinding -> string -> option SecurityPatch
}.

(** [generatePatches(findings, _)]: the first template whose pattern
    accepts the finding; no template, an unreadable resource or a [null]
    patch skip the finding. *)
Fixpoint generatePatches (templates : list PatchTemplate)
         (findings : list SecurityFinding) (fs : FS) : list SecurityPatch :=
  match findings with
  | [] => []
  | finding :: rest =>
      match List.find (fun t => findingPattern t finding) templates with
      | None => generatePatches templates rest fs
      | Some template =>
          match readFile fs (resource finding) with
          | Some content =>
              match generatePatch template finding content with
              | Some patch => patch :: generatePatches templates rest fs
              | None => generatePatches templates rest fs
              end
          | None => generatePatches templates rest fs
          end
      end
  end.

Definition LF : string := String (ascii_of_nat 10) EmptyString.

(** [lines[i] || ''] *)
Definition line_at (lines : list string) (i : nat) : string :=
  default "" (lines !! i).

(** the truthiness of a line: the empty string is falsy *)
Definition nonempty (s : string) : bool := negb (String.eqb s "").

(** what one iteration of the loop of [generateDiff] pushes *)
Definition diff_step (beforeLine afterLine : string) : list string :=
  if negb (String.eqb beforeLine afterLine) then
    (if nonempty beforeLine then ["- " +:+ beforeLine] else [])
    ++ (if nonempty afterLine then ["+ " +:+ afterLine] else [])
  else ["  " +:+ beforeLine].

(** the array [diff] that the loop of [generateDiff] builds *)
Definition diffLines (before after : string) : list string :=
  let beforeLines := split_lines before in
  let afterLines := split_lines after in
  let maxLen := Nat.max (length beforeLines) (length afterLines) in
  flat_map (fun i => diff_step (line_at beforeLines i) (line_at afterLines i))
           (seq 0 maxLen).

Definition generateDiff (before after : string) : string :=
  join LF (diffLines before after).

End PatchEngine.

(* ===================================================================== *)
(** ** ConfigReader ([src/ingestion/configReader.ts]) *)
(* ===================================================================== *)

Module ConfigReader.

(** [normalizeSeverity(severity)]; [None] is [undefined]. *)
Definition normalizeSeverity (severity : option string) : Severity :=
  let given :=
    match severity with
    | Some x => if String.eqb x "" then "high" else x
    | None => "high"
    end in
  let s := toLowerCase given in
  if String.eqb s "critical" then critical
  else if String.eqb s "high" then high
  else if String.eqb s "medium" then medium
  else if String.eqb s "low" then low
  else info.

End ConfigReader.

(* ===================================================================== *)
(** ** The run on one disk *)
(* ===================================================================== *)

Module Pipeline.
Import Grouper PatchEngine Orchestrator.

(** [harden(options)] when the disk does not change between step 3 and
    step 5: the patches are the ones that [generatePatches] derives from
    the unique findings on that same disk. *)
Definition hardenOnDisk (options : OrchestratorOptions)
           (templates : list PatchTemplate) (findings : list SecurityFinding)
           (snapshotId : string) (fs : FS) : Outcome :=
  harden options findings
         (generatePatches templates (uniqueFindings (groupFindings findings)) fs)
         snapshotId fs.

End Pipeline.

(* ===================================================================== *)
(** ** Specification-level definitions used by the theorems *)
(* ===================================================================== *)

Module Spec.
Import Grouper Scorer RollbackManager Orchestrator.

(** the keys present in the [Map] *)
Definition keys_of (m : GroupMap) : gset string := list_to_set (fst <$> m).

(** the findings whose key is met for the first time, given the keys
    already [seen] *)
Fixpoint firsts (seen : gset string) (l : list SecurityFinding)
  : list SecurityFinding :=
  match l with
  | [] => []
  | f :: r =>
      if decide (generateGroupKey f ∈ seen) then firsts seen r
      else f :: firsts (seen ∪ {[generateGroupKey f]}) r
  end.

(** the order of the plan: a higher or equal overall score comes first *)
Definition risk_ge (a b : PrioritizedFinding) : Prop :=
  (overall (riskScore b) <= overall (riskScore a))%Z.

Definition has_overall (v : Z) (p : PrioritizedFinding) : bool :=
  (overall (riskScore p) =? v)%Z.

(** a sequence of writes that all succeed *)
Fixpoint overwrite (writes : list (string * string)) (fs : FS) : option FS :=
  match writes with
  | [] => Some fs
  | (path, content) :: rest =>
      match writeFile fs path content with
      | Some fs' => overwrite rest fs'
      | None => None
      end
  end.

(** the files after the writes of the patches [done], in order *)
Definition files_after (done : list SecurityPatch) (m : gmap string string)
  : gmap string string :=
  fold_left (fun m p => <[p_resource p := after p]> m) done m.

Definition outcome_log (o : Outcome) : list LogLine :=
  match o with
  | Returned _ _ log => log
  | Thrown _ log => log
  end.

Definition outcome_fs (o : Outcome) : FS :=
  match o with
  | Returned _ fs _ => fs
  | Thrown fs _ => fs
  end.

End Spec.

(* ===================================================================== *)
(** ** Concrete findings, patches and disks *)
(* ===================================================================== *)

Module Inputs.
Import Grouper RollbackManager Orchestrator Spec.

Definition pair_first : SecurityFinding :=
  mkFinding "nginx-server-tokens" "config-reader" "sites/a.conf"
            "Server tokens enabled" "server_tokens is on" medium
            "server_tokens on;" "Set server_tokens off" 0.9%Q "nginx-security".

Definition pair_second : SecurityFinding :=
  mkFinding "nginx-server-tokens" "config-reader" "sites/b.conf"
            "Server tokens enabled" "server_tokens is on" medium
            "server_tokens on;" "Set server_tokens off" 0.9%Q "nginx-security".

(** A critical finding that mentions a secret, a data leak and a pivot:
    the capped subtotal is 10 and the scope is CHANGED. *)
Definition pivot_finding : SecurityFinding :=
  mkFinding "k8s-secret-env" "config-reader" "deploy.yaml"
            "Secret in environment"
            "secret in env allows data leak and pivot to other workloads"
            critical "env: DB_PASSWORD" "Use a secret store" 0.8%Q
            "kubernetes-pod-security".

(** A description that says that no exploit is known. *)
Definition no_known_exploit_finding : SecurityFinding :=
  mkFinding "nginx-autoindex" "config-reader" "nginx.conf"
            "Directory listing enabled"
            "no known exploit"
            low "autoindex on;" "Set autoindex off" 0.5%Q "nginx-security".

Definition newline : string := String (ascii_of_nat 10) EmptyString.
Definition tab : string := String (ascii_of_nat 9) EmptyString.

(** a Dockerfile whose second line is the bare keyword RUN *)
Definition bare_run_patch : SecurityPatch :=
  mkPatch "patch-docker-1" "docker-latest-tag" "Dockerfile" docker
          ("FROM node:latest" +:+ newline +:+ "RUN")
          ("FROM node:20" +:+ newline +:+ "RUN")
          "" false.

(** a Dockerfile whose RUN directive has an argument after a tab *)
Definition tab_run_patch : SecurityPatch :=
  mkPatch "patch-docker-2" "docker-latest-tag" "Dockerfile" docker
          ("FROM node:latest" +:+ newline +:+ "RUN" +:+ tab +:+ "make")
          ("FROM node:20" +:+ newline +:+ "RUN" +:+ tab +:+ "make")
          "" false.

Definition apply_with_rollback : OrchestratorOptions :=
  mkOptions "./" false true true.


Definition tokens_patch : SecurityPatch :=
  mkPatch "patch-nginx-1" "nginx-server-tokens" "nginx.conf" nginx
          "server { listen 80; }"
          "server { listen 80; server_tokens off; }"
          "+ server_tokens off;" false.



Definition snapshot_token : string := "00112233aabbccdd".

(** a disk on which every file can be read and written *)
Definition plain_disk : FS :=
  mkFS {[ "nginx.conf" := "server { listen 80; }";
          "Dockerfile" := "FROM node:20" ]}
       ∅ ∅ ∅ true None true.




(** [plain_disk] after the snapshot of [tokens_patch] and an unrelated
    overwrite of nginx.conf *)
Definition snapshot_disk : FS :=
  default plain_disk (createSnapshot snapshot_token [tokens_patch] plain_disk).

Definition scribbled_disk : FS :=
  default snapshot_disk (overwrite [("nginx.conf", "events {}")] snapshot_disk).

End Inputs.

(* ===================================================================== *)
(** ** Further specification-level definitions and inputs *)
(* ===================================================================== *)

Module Invariants.
Import Grouper Scorer RollbackManager Orchestrator PatchEngine Spec.

(** what the loop of [groupFindings] keeps true of the group stored under
    the key [k] *)
Definition group_ok (k : string) (g : FindingGroup) : Prop :=
  count g = length (findings g)
  /\ (exists rest, findings g = representativeFinding g :: rest)
  /\ Forall (fun f => generateGroupKey f = k) (findings g)
  /\ g_id g = "group-" +:+ k
  /\ g_title g = title (representativeFinding g)
  /\ g_category g = category (representativeFinding g)
  /\ g_severity g = severity (representativeFinding g).

(** the state of the loop after the findings [seen] *)
Definition loop_inv (seen : list SecurityFinding) (m : GroupMap)
           (u : list SecurityFinding) : Prop :=
  Forall (fun kg => group_ok kg.1 kg.2) m
  /\ (fun kg => representativeFinding kg.2) <$> m = u
  /\ mjoin ((fun kg => findings kg.2) <$> m) ≡ₚ seen
  /\ NoDup (fst <$> m).

(** the files after the loop of [rollback] over [items], on a disk whose
    unwritable paths are [unw] *)
Definition restored_files (unw : gset string) (items : list SnapshotEntry)
           (m : gmap string string) : gmap string string :=
  fold_left (fun m e => if decide (e_resource e ∈ unw) then m
                        else <[e_resource e := originalContent e]> m)
            items m.

(** the content that the last writable entry for [path] carries *)
Definition last_content (unw : gset string) (path : string)
           (items : list SnapshotEntry) : option string :=
  fold_left (fun o e => if decide (e_resource e ∈ unw) then o
                        else if decide (e_resource e = path)
                             then Some (originalContent e) else o)
            items None.

(** the result that [rollback] reports for an entry *)
Definition entry_result (unw : gset string) (e : SnapshotEntry) : RollbackResult :=
  mkRollbackResult (patchId e) (bool_decide (e_resource e ∉ unw)).

(** every record carries the ratio of its own results, as [recordRollback]
    writes it *)
Definition recorded_by_rollback (h : list RollbackRecord) : Prop :=
  Forall (fun r => successRate r = rollbackSuccessRatio (details r)) h.

Definition history_ok (fs : FS) : Prop :=
  forall h, history fs = Some h -> recorded_by_rollback h.

(** info < low < medium < high < critical *)
Definition severity_rank (s : Severity) : nat :=
  match s with
  | info => 0
  | low => 1
  | medium => 2
  | high => 3
  | critical => 4
  end.

(** the number of findings of [l] with the severity [s] *)
Definition count_severity (s : Severity) (l : list SecurityFinding) : nat :=
  length (List.filter
            (fun f => (severity_rank (severity f) =? severity_rank s)%nat) l).


(** a context line of a diff *)
Definition context_line (line : string) : string := "  " +:+ line.

(** a removal or addition line of a diff *)
Definition is_change (line : string) : bool :=
  String.prefix "- " line || String.prefix "+ " line.

(** every patch of a template is a patch of the resource of its finding
    (all templates of the source set [resource: finding.resource]) *)
Definition templates_keep_resource (templates : list PatchTemplate) : Prop :=
  forall t f content p,
    t ∈ templates -> generatePatch t f content = Some p ->
    p_resource p = resource f.

(** the finding [f] with another severity *)
Definition with_severity (f : SecurityFinding) (s : Severity) : SecurityFinding :=
  mkFinding (f_id f) (tool f) (resource f) (title f) (description f) s
            (evidence f) (recommendation f) (confidence f) (category f).




Fixpoint has_upper (t : string) : bool :=
  match t with
  | EmptyString => false
  | String c r => is_upper c || has_upper r
  end.

End Invariants.

Module MoreInputs.
Import Grouper RollbackManager Orchestrator PatchEngine Spec Invariants Inputs.

(** the group of [pair_first] and [pair_second] *)
Definition pair_group : FindingGroup :=
  add_member pair_second (new_group (generateGroupKey pair_first) pair_first).

(** an nginx patch whose content has an unbalanced brace *)
Definition broken_patch : SecurityPatch :=
  mkPatch "patch-nginx-9" "nginx-server-tokens" "nginx.conf" nginx
          "server { listen 80; }" "server {" "" false.

(** the snapshot that [snapshot_disk] holds *)
Definition tokens_snapshot : Snapshot :=
  mkSnapshot snapshot_token
             [mkEntry "patch-nginx-1" "nginx.conf" "server { listen 80; }"].

(** [scribbled_disk] after the rollback of its snapshot *)
Definition rolled_back_disk : FS := (rollback snapshot_token scribbled_disk).2.

(** a template for the concrete runs: it appends the directive when the
    content lacks it *)
Definition tokens_template : PatchTemplate :=
  mkTemplate "nginx-disable-server-tokens"
             (fun f => String.eqb (f_id f) "nginx-server-tokens-exposed")
             nginx
             (fun finding content =>
                if includes content "server_tokens off" then None
                else
                  let after := content +:+ LF +:+ "server_tokens off;" in
                  Some (mkPatch ("patch-" +:+ f_id finding) (f_id finding)
                                (resource finding) nginx content after
                                (generateDiff content after) false)).

Definition tokens_finding : SecurityFinding :=
  mkFinding "nginx-server-tokens-exposed" "config-reader" "nginx.conf"
            "Server tokens exposed" "server_tokens is not disabled" low
            "listen 80;" "Set server_tokens off" 0.9%Q "nginx-security".

End MoreInputs.

(* ===================================================================== *)
(** ** Theorems: FindingGrouper *)
(* ===================================================================== *)

Module GrouperProofs.
Import Grouper Spec Inputs.

Lemma keys_of_cons k g (m : GroupMap) :
  keys_of ((k, g) :: m) = {[k]} ∪ keys_of m.
Proof. reflexivity. Qed.

Lemma map_get_None (m : GroupMap) (k : string) :
  map_get k m = None <-> k ∉ keys_of m.
Proof.
  induction m as [|[k' g] m IH].
  - split; [intros _; apply not_elem_of_empty | done].
  - rewrite keys_of_cons, not_elem_of_union, not_elem_of_singleton. simpl.
    destruct (String.eqb_spec k k') as [->|Hne].
    + split; [done | intros [? _]; done].
    + rewrite IH. tauto.
Qed.

Lemma keys_of_update (m : GroupMap) k f :
  keys_of (map_update k f m) = keys_of m.
Proof.
  induction m as [|[k' g] m IH]; [done|]. simpl.
  destruct (String.eqb k k'); [done|].
  by rewrite !keys_of_cons, IH.
Qed.

Lemma keys_of_snoc (m : GroupMap) k g :
  keys_of (m ++ [(k, g)]) = keys_of m ∪ {[k]}.
Proof.
  unfold keys_of. rewrite fmap_app, list_to_set_app_L. simpl.
  by rewrite (right_id_L ∅ (∪)).
Qed.

(** The loop keeps exactly the first finding of every key. *)
Lemma group_loop_unique l : forall m u,
  snd (group_loop l (m, u)) = u ++ firsts (keys_of m) l.
Proof.
  induction l as [|f l IH]; intros m u; simpl.
  - by rewrite app_nil_r.
  - unfold group_loop in IH. destruct (map_get (generateGroupKey f) m) eqn:Hget.
    + rewrite IH, keys_of_update.
      destruct (decide (generateGroupKey f ∈ keys_of m)) as [_|Hn]; [done|].
      apply map_get_None in Hn. congruence.
    + rewrite IH, keys_of_snoc.
      apply map_get_None in Hget.
      destruct (decide (generateGroupKey f ∈ keys_of m)); [done|].
      by rewrite <- app_assoc.
Qed.

Lemma uniqueFindings_firsts l :
  uniqueFindings (groupFindings l) = firsts ∅ l.
Proof.
  unfold groupFindings.
  pose proof (group_loop_unique l [] []) as H.
  destruct (group_loop l ([], [])) as [m u] eqn:E.
  exact (eq_trans (eq_sym (f_equal snd E)) H).
Qed.

Lemma duplicateCount_eq l :
  duplicateCount (groupFindings l)
  = (Z.of_nat (length l) - Z.of_nat (length (uniqueFindings (groupFindings l))))%Z.
Proof.
  unfold groupFindings. by destruct (group_loop l ([], [])) as [m u].
Qed.

Lemma noiseReductionPercent_eq l :
  noiseReductionPercent (groupFindings l)
  = noise_percent (duplicateCount (groupFindings l)) (length l).
Proof.
  unfold groupFindings. by destruct (group_loop l ([], [])) as [m u].
Qed.

Lemma firsts_idempotent l : forall seen,
  firsts seen (firsts seen l) = firsts seen l.
Proof.
  induction l as [|f l IH]; intros seen; simpl; [done|].
  destruct (decide (generateGroupKey f ∈ seen)) as [Hin|Hnin]; [apply IH|].
  simpl. destruct (decide (generateGroupKey f ∈ seen)); [done|].
  by rewrite IH.
Qed.

Lemma noise_percent_zero n : noise_percent 0 n = 0%Z.
Proof.
  destruct n as [|n]; [done|]. unfold noise_percent, js_round, Qfloor.
  simpl. apply Z.div_small. lia.
Qed.

(** C7.  Two findings that agree on tool, category, title and severity
    (whatever their resources are) share a grouping key: grouping the
    two-element list keeps the first one only, counts one duplicate and
    reports a noise reduction of 50 percent. *)
Theorem group_pair_same_key (f1 f2 : SecurityFinding) :
  tool f1 = tool f2 ->
  category f1 = category f2 ->
  title f1 = title f2 ->
  severity f1 = severity f2 ->
  uniqueFindings (groupFindings [f1; f2]) = [f1]
  /\ duplicateCount (groupFindings [f1; f2]) = 1%Z
  /\ noiseReductionPercent (groupFindings [f1; f2]) = 50%Z.
Proof.
  intros Ht Hc Hti Hs.
  assert (Hk : generateGroupKey f2 = generateGroupKey f1).
  { unfold generateGroupKey. by rewrite Ht, Hc, Hti, Hs. }
  unfold groupFindings, group_loop. simpl.
  rewrite Hk, String.eqb_refl. simpl. repeat split; reflexivity.
Qed.

Lemma group_pair_same_key_witness :
  resource pair_first <> resource pair_second
  /\ uniqueFindings (groupFindings [pair_first; pair_second]) = [pair_first]
  /\ duplicateCount (groupFindings [pair_first; pair_second]) = 1%Z
  /\ noiseReductionPercent (groupFindings [pair_first; pair_second]) = 50%Z.
Proof.
  split; [discriminate|].
  apply (group_pair_same_key pair_first pair_second); reflexivity.
Defined.

(** C8.  Grouping is idempotent: grouping the unique findings of a
    grouping again finds no duplicate, reports 0 percent noise reduction
    and returns the same unique findings in the same order. *)
Theorem group_idempotent (l : list SecurityFinding) :
  let again := groupFindings (uniqueFindings (groupFindings l)) in
  duplicateCount again = 0%Z
  /\ noiseReductionPercent again = 0%Z
  /\ uniqueFindings again = uniqueFindings (groupFindings l).
Proof.
  cbv zeta. set (u := uniqueFindings (groupFindings l)).
  assert (Hu : uniqueFindings (groupFindings u) = u).
  { subst u. rewrite !uniqueFindings_firsts. apply firsts_idempotent. }
  assert (Hd : duplicateCount (groupFindings u) = 0%Z).
  { rewrite duplicateCount_eq, Hu. lia. }
  repeat split; [exact Hd | | exact Hu].
  rewrite noiseReductionPercent_eq, Hd. apply noise_percent_zero.
Qed.

End GrouperProofs.

(* ===================================================================== *)
(** ** Theorems: RiskScorer *)
(* ===================================================================== *)

Module ScorerProofs.
Import Scorer Inputs.

Lemma js_clamp_bounds (x : Q) :
  (0 <= js_max 0 (js_min 10 x) /\ js_max 0 (js_min 10 x) <= 10)%Q.
Proof.
  unfold js_max, js_min.
  destruct (Qle_bool 10 x) eqn:E1.
  - assert (Qle_bool 0 10 = true) as -> by reflexivity.
    split; [discriminate | apply Qle_refl].
  - destruct (Qle_bool 0 x) eqn:E2.
    + apply Qle_bool_iff in E2. split; [exact E2|].
      apply Qlt_le_weak, Qnot_le_lt. intros H.
      apply Qle_bool_iff in H. congruence.
    + split; [apply Qle_refl | discriminate].
Qed.

(** The overall score is clamped after the composition. *)
Lemma overall_bounds (finding : SecurityFinding) :
  (0 <= overall (scoreFind finding) <= 100)%Z.
Proof. unfold scoreFind, clamp_overall. simpl. lia. Qed.

(** The subtotal of [calculateBusinessImpact] is capped to [0,10]. *)
Lemma calculateBusinessImpact_bounds (finding : SecurityFinding) :
  (0 <= calculateBusinessImpact finding
   /\ calculateBusinessImpact finding <= 10)%Q.
Proof. unfold calculateBusinessImpact. apply js_clamp_bounds. Qed.

(** C4.  On [pivot_finding] the capped subtotal 10 is multiplied by the
    scope weight 1.2 and not capped again: the [businessImpact] of the
    returned score is 12, above the bound 10. *)
Theorem businessImpact_above_ten :
  (calculateBusinessImpact pivot_finding == 10
   /\ scope (calculateCVSSModifiers pivot_finding) == 1.2
   /\ businessImpact (scoreFind pivot_finding) == 12
   /\ ~ businessImpact (scoreFind pivot_finding) <= 10)%Q.
Proof.
  repeat split; try (vm_compute; reflexivity).
  intros H. apply Qle_bool_iff in H. vm_compute in H. discriminate H.
Qed.

(** C5.  On a description that is exactly the text "no known exploit"
    (confidence 0.5, category nginx-security) the first branch of the
    maturity test fires on the substring "exploit": the temporal score
    is 5.0 + 2.0 = 7.0 and not 4.0. *)
Theorem temporal_no_known_exploit :
  (calculateTemporalScore no_known_exploit_finding == 7.0
   /\ ~ calculateTemporalScore no_known_exploit_finding == 4.0)%Q.
Proof.
  split; [vm_compute; reflexivity|].
  intros H. apply Qeq_bool_iff in H. vm_compute in H. discriminate H.
Qed.

(** The subtraction is reached by a description without "exploit". *)
Example temporal_theoretical :
  (calculateTemporalScore
     (mkFinding "x" "config-reader" "nginx.conf" "t" "theoretical weakness, no known attack"
                low "" "" 0.5 "nginx-security") == 4.0)%Q.
Proof. vm_compute. reflexivity. Qed.

End ScorerProofs.

(* ===================================================================== *)
(** ** Theorems: Validator *)
(* ===================================================================== *)

Module ValidatorProofs.
Import Validator Inputs.

(** No directive keyword standing alone on its line matches the test
    [/^(RUN|...)\s+/i], which asks for white space after the keyword. *)
Lemma bare_directive_not_flagged :
  Forall (fun kw => directive_space kw = false) directives.
Proof. repeat constructor. Qed.

(** C9.  The Dockerfile made of a FROM line and the line RUN alone passes
    validation, and one whose RUN directive is followed by a tab and an
    argument (no blank on the line) fails it. *)
Theorem docker_bare_keyword_passes :
  split_lines (after bare_run_patch) = ["FROM node:20"; "RUN"]
  /\ passed (validatePatch bare_run_patch) = true
  /\ passed (validatePatch tab_run_patch) = false.
Proof. repeat split; vm_compute; reflexivity. Qed.

End ValidatorProofs.

(* ===================================================================== *)
(** ** Theorems: the scoring stage of the Orchestrator *)
(* ===================================================================== *)

Module SortProofs.
Import Scorer Orchestrator Spec.

Lemma byRisk_le a b : (byRiskDescending a b <=? 0)%Z = true <-> risk_ge a b.
Proof. unfold byRiskDescending, risk_ge. rewrite Z.leb_le. lia. Qed.

Lemma sort_insert_HdRel x y l :
  risk_ge y x -> HdRel risk_ge y l ->
  HdRel risk_ge y (sort_insert byRiskDescending x l).
Proof.
  intros Hyx Hl. destruct l as [|z l]; simpl.
  - by constructor.
  - destruct (byRiskDescending x z <=? 0)%Z; constructor; [done|].
    by inversion Hl.
Qed.

Lemma sort_insert_Sorted x l :
  Sorted risk_ge l -> Sorted risk_ge (sort_insert byRiskDescending x l).
Proof.
  induction 1 as [|y l Hs IH Hd]; simpl.
  - repeat constructor.
  - destruct (byRiskDescending x y <=? 0)%Z eqn:E.
    + apply byRisk_le in E. repeat constructor; done.
    + constructor; [exact IH|].
      apply sort_insert_HdRel; [|exact Hd].
      unfold risk_ge. apply Z.leb_gt in E. unfold byRiskDescending in E. lia.
Qed.

Lemma array_sort_Sorted l : Sorted risk_ge (array_sort byRiskDescending l).
Proof.
  induction l as [|x l IH]; simpl; [constructor|].
  by apply sort_insert_Sorted.
Qed.

Lemma Sorted_adjacent (l : list PrioritizedFinding) :
  Sorted risk_ge l ->
  forall i a b, l !! i = Some a -> l !! S i = Some b -> risk_ge a b.
Proof.
  induction 1 as [|x l Hs IH Hd]; intros i a b Ha Hb; [done|].
  destruct i as [|i]; simpl in *.
  - injection Ha as <-. destruct l as [|y l]; [done|].
    injection Hb as <-. by inversion Hd.
  - by eapply IH.
Qed.

Lemma sort_insert_Permutation x (l : list PrioritizedFinding) :
  sort_insert byRiskDescending x l ≡ₚ x :: l.
Proof.
  induction l as [|y l IH]; simpl; [done|].
  destruct (byRiskDescending x y <=? 0)%Z; [done|].
  rewrite IH. apply Permutation_swap.
Qed.

Lemma array_sort_Permutation (l : list PrioritizedFinding) :
  array_sort byRiskDescending l ≡ₚ l.
Proof.
  induction l as [|x l IH]; simpl; [done|].
  by rewrite sort_insert_Permutation, IH.
Qed.

(** Insertion only moves [x] past elements of a strictly higher score. *)
Lemma sort_insert_filter v x l :
  List.filter (has_overall v) (sort_insert byRiskDescending x l)
  = List.filter (has_overall v) (x :: l).
Proof.
  induction l as [|y l IH]; [done|].
  cbn [sort_insert]. destruct (byRiskDescending x y <=? 0)%Z eqn:E; [done|].
  apply Z.leb_gt in E. unfold byRiskDescending in E.
  cbn [List.filter] in *. rewrite IH. unfold has_overall.
  destruct (overall (riskScore x) =? v)%Z eqn:Ex;
    destruct (overall (riskScore y) =? v)%Z eqn:Ey; try reflexivity.
  apply Z.eqb_eq in Ex, Ey. lia.
Qed.

Lemma array_sort_filter v l :
  List.filter (has_overall v) (array_sort byRiskDescending l)
  = List.filter (has_overall v) l.
Proof.
  induction l as [|x l IH]; [done|].
  cbn [array_sort]. rewrite sort_insert_filter.
  cbn [List.filter]. by rewrite IH.
Qed.

(** C6.  The prioritized plan is the scored input in descending order of
    [riskScore.overall]: adjacent entries are ordered, nothing is lost or
    added, and for every score the findings with that overall score
    appear in their input order. *)
Theorem scoreFindings_sorted_stable (findings : list SecurityFinding) :
  let plan := scoreFindings findings in
  (forall i a b, plan !! i = Some a -> plan !! S i = Some b ->
                 (overall (riskScore a) >= overall (riskScore b))%Z)
  /\ plan ≡ₚ prioritize <$> findings
  /\ (forall v, List.filter (has_overall v) plan
                = List.filter (has_overall v) (prioritize <$> findings)).
Proof.
  cbv zeta. unfold scoreFindings. repeat split.
  - intros i a b Ha Hb. apply Z.le_ge.
    exact (Sorted_adjacent _ (array_sort_Sorted _) i a b Ha Hb).
  - apply array_sort_Permutation.
  - intros v. apply array_sort_filter.
Qed.

End SortProofs.

(* ===================================================================== *)
(** ** Theorems: RollbackManager *)
(* ===================================================================== *)

Module RollbackProofs.
Import RollbackManager Orchestrator Spec Inputs.

Lemma writeFile_Some fs path content fs' :
  writeFile fs path content = Some fs' ->
  (path ∉ unwritable fs)
  /\ fs' = set_files (<[path := content]> (files fs)) fs.
Proof.
  unfold writeFile. destruct (decide (path ∈ unwritable fs)); [done|].
  by intros [= <-].
Qed.

Lemma writeFile_writable fs path content :
  path ∉ unwritable fs ->
  writeFile fs path content
  = Some (set_files (<[path := content]> (files fs)) fs).
Proof. intros H. unfold writeFile. by destruct (decide _). Qed.


(** Every entry of a snapshot holds what its resource read at that time. *)
Lemma snapshotEntries_preimage patches fs e :
  e ∈ snapshotEntries patches fs ->
  readFile fs (e_resource e) = Some (originalContent e)
  /\ exists patch, patch ∈ patches
       /\ patchId e = p_id patch /\ e_resource e = p_resource patch.
Proof.
  induction patches as [|p ps IH]; simpl; [by intros ?%elem_of_nil|].
  destruct (readFile fs (p_resource p)) as [c|] eqn:Hr.
  - intros [->|Hin]%elem_of_cons.
    + split; [done|]. exists p. split; [left|done].
    + destruct (IH Hin) as [? (q & ? & ?)]. split; [done|].
      exists q. split; [by right|done].
  - intros Hin. destruct (IH Hin) as [? (q & ? & ?)]. split; [done|].
    exists q. split; [by right|done].
Qed.

(** Every patch whose resource can be read gets its entry. *)
Lemma snapshotEntries_complete patches fs patch content :
  patch ∈ patches ->
  readFile fs (p_resource patch) = Some content ->
  mkEntry (p_id patch) (p_resource patch) content ∈ snapshotEntries patches fs.
Proof.
  induction patches as [|p ps IH]; [by intros ?%elem_of_nil|].
  intros [->|Hin]%elem_of_cons Hr; simpl.
  - rewrite Hr. left.
  - destruct (readFile fs (p_resource p)); [right|]; by apply IH.
Qed.

(** A resource that cannot be read gets no entry. *)
Lemma snapshotEntries_skips patches fs e :
  e ∈ snapshotEntries patches fs -> readFile fs (e_resource e) <> None.
Proof. intros [H _]%snapshotEntries_preimage. by rewrite H. Qed.

Lemma createSnapshot_Some sid patches fs fs' :
  createSnapshot sid patches fs = Some fs' ->
  fs' = set_snapshots
          (<[sid := mkSnapshot sid (snapshotEntries patches fs)]> (snapshots fs)) fs.
Proof.
  unfold createSnapshot. destruct (snapshotDirWritable fs); [|done].
  by intros [= <-].
Qed.


(** The loop of [rollback] touches neither permissions nor snapshots. *)
Lemma restoreEntries_frame items : forall fs,
  unreadable (restoreEntries items fs).2 = unreadable fs
  /\ unwritable (restoreEntries items fs).2 = unwritable fs
  /\ snapshots (restoreEntries items fs).2 = snapshots fs
  /\ history (restoreEntries items fs).2 = history fs.
Proof.
  induction items as [|item rest IH]; intros fs; simpl; [done|].
  destruct (writeFile fs _ _) as [fs1|] eqn:Hw.
  - apply writeFile_Some in Hw as [_ ->].
    specialize (IH (set_files (<[e_resource item:=originalContent item]> (files fs)) fs)).
    destruct (restoreEntries rest _) as [rs fs2]. exact IH.
  - specialize (IH fs). destruct (restoreEntries rest fs) as [rs fs2]. exact IH.
Qed.




End RollbackProofs.

(* ===================================================================== *)
(** ** Theorems: Orchestrator *)
(* ===================================================================== *)

Module OrchestratorProofs.
Import Grouper RollbackManager Orchestrator Spec Inputs RollbackProofs.

(** [applyPatches] writes a prefix of the list, in order, and stops at
    the first patch whose write throws. *)
Lemma applyPatches_all_written (done : list SecurityPatch) : forall fs,
  Forall (fun p => p_resource p ∉ unwritable fs) done ->
  applyPatches done fs
  = (true, mark_applied <$> done, set_files (files_after done (files fs)) fs).
Proof.
  induction done as [|p ps IH]; intros fs Hall; simpl.
  - by destruct fs.
  - inversion Hall as [|? ? Hp Hps]; subst.
    rewrite (writeFile_writable _ _ _ Hp).
    rewrite IH by exact Hps. reflexivity.
Qed.




Lemma applyPatches_frame patches : forall fs,
  unreadable (applyPatches patches fs).2 = unreadable fs
  /\ unwritable (applyPatches patches fs).2 = unwritable fs
  /\ snapshots (applyPatches patches fs).2 = snapshots fs
  /\ history (applyPatches patches fs).2 = history fs.
Proof.
  induction patches as [|p ps IH]; intros fs; simpl; [done|].
  destruct (writeFile fs _ _) as [fs1|] eqn:Hw; [|done].
  apply writeFile_Some in Hw as [_ ->].
  specialize (IH (set_files (<[p_resource p:=after p]> (files fs)) fs)).
  destruct (applyPatches ps _) as [[ok r] f]. exact IH.
Qed.

(** The patches that come back are the input patches, flags apart. *)
Lemma applyPatches_same_patches patches : forall fs p',
  p' ∈ (applyPatches patches fs).1.2 ->
  exists p, p ∈ patches /\ p_id p' = p_id p /\ p_resource p' = p_resource p.
Proof.
  induction patches as [|p ps IH]; intros fs p'; simpl;
    [by intros ?%elem_of_nil|].
  destruct (writeFile fs _ _) as [fs1|] eqn:Hw.
  - specialize (IH fs1 p').
    destruct (applyPatches ps fs1) as [[ok r] f]. simpl in *.
    intros [->|Hin]%elem_of_cons.
    + exists p. split; [left|done].
    + destruct (IH Hin) as (q & ? & ?). exists q. split; [by right|done].
  - simpl. intros Hin. exists p'. by split.
Qed.

Lemma rollback_frame sid fs :
  unreadable (rollback sid fs).2 = unreadable fs
  /\ unwritable (rollback sid fs).2 = unwritable fs
  /\ snapshots (rollback sid fs).2 = snapshots fs.
Proof.
  unfold rollback. destruct (snapshots fs !! sid) as [snap|]; [|done].
  destruct (restoreEntries_frame (s_patches snap) fs) as (H1 & H2 & H3 & _).
  destruct (restoreEntries (s_patches snap) fs) as [rs fs']. simpl in *.
  unfold recordRollback. by destruct (historyWritable fs').
Qed.


(** a line that is none of the lines of a (concrete) log *)
Ltac absent_from_log :=
  let H := fresh "Hin" in
  intros H;
  repeat (apply elem_of_cons in H as [H|H]; [discriminate H|]);
  by apply elem_of_nil in H.

(** The pass rate of an empty list of validation results is [NaN], and
    [NaN < 1.0] is false. *)
Lemma empty_pass_rate_not_below_one :
  js_div (length (List.filter passed (validatePatches [])))
         (length (validatePatches [])) = NaN
  /\ js_lt NaN 1.0%Q = false.
Proof. split; reflexivity. Qed.

(** C10.  With an empty patch list the pass rate of step 4 is [0 / 0]:
    the test of step 6 is false, so no run prints the rollback line,
    touches a resource or appends to the rollback history; a run that
    returns reports no rollback result and a validation pass rate of 1.0,
    and a run throws only when the snapshot cannot be persisted. *)
Theorem empty_patch_list_no_rollback
        (options : OrchestratorOptions) (findings : list SecurityFinding)
        (sid : string) (fs : FS) :
  let run := harden options findings [] sid fs in
  (LogRollbackTriggered ∉ outcome_log run)
  /\ files (outcome_fs run) = files fs
  /\ history (outcome_fs run) = history fs
  /\ match run with
     | Returned report _ _ =>
         rollbackResults report = []
         /\ (validationPassRate (statistics report) == 1.0)%Q
     | Thrown _ _ =>
         apply options = true /\ dryRun options = false
         /\ enableRollback options = true /\ snapshotDirWritable fs = false
     end.
Proof.
  cbv zeta. unfold harden. simpl.
  destruct (apply options), (dryRun options), (enableRollback options); simpl;
    try (repeat split; try reflexivity; absent_from_log).
  unfold createSnapshot. destruct (snapshotDirWritable fs); simpl;
    repeat split; try reflexivity; absent_from_log.
Qed.

Example the_rollback_stage_can_fire :
  LogRollbackTriggered
    ∈ outcome_log (harden apply_with_rollback []
                          [mkPatch "p" "f" "nginx.conf" nginx "" "server {" "" false]
                          snapshot_token plain_disk).
Proof. vm_compute. do 4 right. left. Qed.

End OrchestratorProofs.

(* ===================================================================== *)
(** ** Concrete runs *)
(* ===================================================================== *)

Module Runs.
Import RollbackManager Orchestrator Spec Inputs RollbackProofs OrchestratorProofs.






End Runs.

(* ===================================================================== *)
(** ** Further theorems: FindingGrouper *)
(* ===================================================================== *)

Module GrouperInvariants.
Import Grouper Spec Invariants GrouperProofs.

Lemma map_get_Some_key (m : GroupMap) k g :
  map_get k m = Some g -> (k, g) ∈ m.
Proof.
  induction m as [|[k' g'] m IH]; simpl; [done|].
  destruct (String.eqb_spec k k') as [->|Hne].
  - intros [= ->]. left.
  - intros H. right. by apply IH.
Qed.

Lemma map_update_fst (m : GroupMap) k f :
  fst <$> map_update k f m = fst <$> m.
Proof.
  induction m as [|[k' g] m IH]; [done|]. cbn [map_update].
  destruct (String.eqb k k'); csimpl; [done|]. by rewrite IH.
Qed.

Lemma map_update_Forall (P : string * FindingGroup -> Prop) (m : GroupMap) k f :
  Forall P m ->
  (forall g, P (k, g) -> P (k, f g)) ->
  Forall P (map_update k f m).
Proof.
  intros Hall Hf. induction Hall as [|[k' g] m Hg Hm IH]; simpl; [constructor|].
  destruct (String.eqb_spec k k') as [->|Hne]; constructor; auto.
Qed.

Lemma map_update_representatives (m : GroupMap) k finding :
  (fun kg => representativeFinding kg.2) <$> map_update k (add_member finding) m
  = (fun kg => representativeFinding kg.2) <$> m.
Proof.
  induction m as [|[k' g] m IH]; [done|]. cbn [map_update].
  destruct (String.eqb k k'); csimpl; [done|]. by rewrite IH.
Qed.

Lemma map_update_members (m : GroupMap) k g finding :
  map_get k m = Some g ->
  mjoin ((fun kg => findings kg.2) <$> map_update k (add_member finding) m)
  ≡ₚ mjoin ((fun kg => findings kg.2) <$> m) ++ [finding].
Proof.
  induction m as [|[k' g'] m IH]; [done|]. cbn [map_get map_update].
  destruct (String.eqb k k'); csimpl.
  - intros _. rewrite <- !app_assoc. apply Permutation_app_head.
    apply Permutation_app_comm.
  - intros H. rewrite IH by exact H. by rewrite app_assoc.
Qed.

Lemma group_step_inv seen m u finding :
  loop_inv seen m u ->
  loop_inv (seen ++ [finding]) (group_step (m, u) finding).1
           (group_step (m, u) finding).2.
Proof.
  intros (Hok & Hrep & Hmem & Hnd). unfold group_step.
  destruct (map_get (generateGroupKey finding) m) as [g|] eqn:Hget; simpl.
  - split; [|split; [|split]].
    + apply map_update_Forall; [exact Hok|].
      intros g' (Hc & [rest Hr] & Hk & Hid & Ht & Hcat & Hsev). simpl in *.
      repeat split; simpl; try done.
      * rewrite length_app. simpl. lia.
      * exists (rest ++ [finding]). by rewrite Hr.
      * apply Forall_app. split; [exact Hk|]. by constructor.
    + by rewrite map_update_representatives.
    + rewrite (map_update_members _ _ _ _ Hget). by rewrite Hmem.
    + by rewrite map_update_fst.
  - split; [|split; [|split]].
    + apply Forall_app. split; [exact Hok|]. constructor; [|constructor].
      repeat split; simpl; try done.
      * by exists [].
      * by constructor.
    + rewrite fmap_app. simpl. by rewrite Hrep.
    + rewrite fmap_app, join_app, Hmem. by csimpl.
    + rewrite fmap_app. simpl. apply NoDup_app. split; [exact Hnd|].
      split; [|apply NoDup_singleton].
      intros k Hk ->%list_elem_of_singleton.
      apply map_get_None in Hget. apply Hget. unfold keys_of.
      by apply elem_of_list_to_set.
Qed.

Lemma group_loop_inv l : forall seen m u,
  loop_inv seen m u ->
  loop_inv (seen ++ l) (group_loop l (m, u)).1 (group_loop l (m, u)).2.
Proof.
  induction l as [|f l IH]; intros seen m u Hinv.
  - simpl. by rewrite app_nil_r.
  - pose proof (group_step_inv _ _ _ f Hinv) as Hstep.
    change (group_loop (f :: l) (m, u)) with (group_loop l (group_step (m, u) f)).
    destruct (group_step (m, u) f) as [m' u'].
    replace (seen ++ f :: l) with ((seen ++ [f]) ++ l) by by rewrite <- app_assoc.
    apply (IH _ _ _ Hstep).
Qed.

Lemma groupFindings_inv l :
  exists m, group_loop l ([], []) = (m, uniqueFindings (groupFindings l))
            /\ groups (groupFindings l) = snd <$> m
            /\ loop_inv l m (uniqueFindings (groupFindings l)).
Proof.
  assert (H0 : loop_inv [] [] []).
  { repeat split; simpl; try done; constructor. }
  pose proof (group_loop_inv l [] [] [] H0) as H. simpl in H.
  unfold groupFindings.
  destruct (group_loop l ([], [])) as [m u] eqn:E. exists m. simpl.
  pose proof (eq_rect _ (fun r => loop_inv l r.1 r.2) H _ E) as H'.
  repeat split; apply H'.
Qed.

(** X1.  Every group that [groupFindings] returns is consistent: its
    [count] is the number of its members, its first member is its
    representative, every member has the representative's grouping key,
    and its title, category and severity are the representative's. *)
Theorem groups_consistent (l : list SecurityFinding) (g : FindingGroup) :
  g ∈ groups (groupFindings l) ->
  count g = length (findings g)
  /\ (exists rest, findings g = representativeFinding g :: rest)
  /\ Forall (fun f => generateGroupKey f
                      = generateGroupKey (representativeFinding g)) (findings g)
  /\ g_id g = "group-" +:+ generateGroupKey (representativeFinding g)
  /\ g_title g = title (representativeFinding g)
  /\ g_category g = category (representativeFinding g)
  /\ g_severity g = severity (representativeFinding g).
Proof.
  destruct (groupFindings_inv l) as (m & _ & -> & Hok & _).
  intros ([k g'] & -> & Hin)%list_elem_of_fmap. simpl.
  rewrite Forall_forall in Hok.
  destruct (Hok _ Hin) as (Hc & [rest Hr] & Hk & Hid & Ht & Hcat & Hsev).
  simpl in *.
  assert (Hrk : generateGroupKey (representativeFinding g') = k).
  { rewrite Forall_forall in Hk. apply Hk. rewrite Hr. left. }
  rewrite Hrk. repeat split; try done. by exists rest.
Qed.

Lemma groups_representatives (l : list SecurityFinding) :
  representativeFinding <$> groups (groupFindings l)
  = uniqueFindings (groupFindings l).
Proof.
  destruct (groupFindings_inv l) as (m & _ & Hg & _ & Hrep & _).
  rewrite Hg, <- Hrep, <- list_fmap_compose. done.
Qed.

Lemma groups_length (l : list SecurityFinding) :
  length (groups (groupFindings l)) = length (uniqueFindings (groupFindings l)).
Proof. by rewrite <- groups_representatives, length_fmap. Qed.

(** X2.  The groups come in the order of the unique findings: the list of
    their representatives is [uniqueFindings], so there are as many
    groups as unique findings. *)
Theorem representatives_are_unique_findings (l : list SecurityFinding) :
  representativeFinding <$> groups (groupFindings l)
  = uniqueFindings (groupFindings l)
  /\ length (groups (groupFindings l))
     = length (uniqueFindings (groupFindings l)).
Proof. split; [apply groups_representatives | apply groups_length]. Qed.

(** X3.  No finding is lost or invented: the members of all groups
    together are a permutation of the input, and the counts add up to the
    number of raw findings. *)
Theorem groups_partition_input (l : list SecurityFinding) :
  mjoin (findings <$> groups (groupFindings l)) ≡ₚ l
  /\ sum_list (count <$> groups (groupFindings l)) = length l.
Proof.
  destruct (groupFindings_inv l) as (m & _ & Hg & Hok & _ & Hmem & _).
  assert (H : mjoin (findings <$> groups (groupFindings l)) ≡ₚ l).
  { rewrite Hg, <- list_fmap_compose. exact Hmem. }
  split; [exact H|].
  rewrite <- (Permutation_length H). rewrite Hg.
  clear -Hok. induction Hok as [|[k g] m Hg Hm IH]; simpl; [done|].
  destruct Hg as (Hc & _). simpl in Hc. rewrite length_app, <- Hc.
  f_equal. exact IH.
Qed.

Lemma firsts_sublist l : forall seen, sublist (firsts seen l) l.
Proof.
  induction l as [|f l IH]; intros seen; simpl; [constructor|].
  destruct (decide (generateGroupKey f ∈ seen)).
  - apply sublist_cons, IH.
  - apply sublist_skip, IH.
Qed.

Lemma firsts_fresh l : forall seen u,
  u ∈ firsts seen l -> generateGroupKey u ∉ seen.
Proof.
  induction l as [|f l IH]; intros seen u; simpl; [by intros ?%elem_of_nil|].
  destruct (decide (generateGroupKey f ∈ seen)) as [|Hn]; [apply IH|].
  intros [->|Hin]%elem_of_cons; [done|].
  apply IH in Hin. intros H. apply Hin. apply elem_of_union. by left.
Qed.

Lemma firsts_NoDup l : forall seen,
  NoDup (generateGroupKey <$> firsts seen l).
Proof.
  induction l as [|f l IH]; intros seen; simpl; [constructor|].
  destruct (decide (generateGroupKey f ∈ seen)) as [|Hn]; [apply IH|].
  csimpl. constructor; [|apply IH].
  intros (u & Hk & Hin)%list_elem_of_fmap. apply firsts_fresh in Hin.
  apply Hin. apply elem_of_union. right. rewrite <- Hk.
  by apply elem_of_singleton.
Qed.

Lemma firsts_cover l : forall seen f,
  f ∈ l ->
  generateGroupKey f ∈ seen
  \/ exists u, u ∈ firsts seen l /\ generateGroupKey u = generateGroupKey f.
Proof.
  induction l as [|x l IH]; intros seen f; [by intros ?%elem_of_nil|].
  intros Hin. simpl.
  destruct (decide (generateGroupKey x ∈ seen)) as [Hx|Hx].
  - apply elem_of_cons in Hin as [->|Hin]; [by left|]. by apply IH.
  - apply elem_of_cons in Hin as [->|Hin].
    + right. exists x. split; [left|done].
    + destruct (IH (seen ∪ {[generateGroupKey x]}) f Hin) as [Hs|(u & Hu & Hk)].
      * apply elem_of_union in Hs as [Hs|Hs]; [by left|].
        apply elem_of_singleton in Hs. right. exists x. split; [left|done].
      * right. exists u. split; [by right|done].
Qed.

(** X4.  [uniqueFindings] keeps the input order (it is a sublist of the
    input), holds no two findings with the same grouping key, and holds a
    finding with the key of every input finding. *)
Theorem uniqueFindings_sublist_distinct_cover (l : list SecurityFinding) :
  sublist (uniqueFindings (groupFindings l)) l
  /\ NoDup (generateGroupKey <$> uniqueFindings (groupFindings l))
  /\ (forall f, f ∈ l ->
        exists u, u ∈ uniqueFindings (groupFindings l)
                  /\ generateGroupKey u = generateGroupKey f).
Proof.
  rewrite uniqueFindings_firsts. split; [apply firsts_sublist|].
  split; [apply firsts_NoDup|].
  intros f Hf. destruct (firsts_cover l ∅ f Hf) as [H|H]; [|exact H].
  by apply elem_of_empty in H.
Qed.

Lemma noise_percent_bounds (d : Z) (n : nat) :
  (0 <= d <= Z.of_nat n)%Z -> (0 <= noise_percent d n <= 100)%Z.
Proof.
  intros Hd. destruct n as [|n]; [simpl; lia|].
  unfold noise_percent, js_round.
  set (x := ((d # Pos.of_nat (S n)) * 100 + (1 # 2))%Q).
  assert (H0 : (inject_Z 0 <= x)%Q).
  { subst x. unfold Qle, Qplus, Qmult, inject_Z. simpl. nia. }
  assert (H1 : (x <= 201 # 2)%Q).
  { subst x. unfold Qle, Qplus, Qmult. simpl.
    assert (Hp : Z.pos (Pos.of_nat (S n)) = Z.of_nat (S n)).
    { rewrite <- (Nat2Pos.id (S n)) at 2 by done. by rewrite positive_nat_Z. }
    rewrite Pos2Z.inj_mul, Hp. nia. }
  apply Qfloor_resp_le in H0, H1. rewrite Qfloor_Z in H0.
  change (Qfloor (201 # 2)) with 100%Z in H1. lia.
Qed.

(** X5.  The duplicate count lies between 0 and the number of raw
    findings, and the noise reduction is a percentage between 0 and 100. *)
Theorem duplicate_and_noise_bounds (l : list SecurityFinding) :
  (0 <= duplicateCount (groupFindings l) <= Z.of_nat (length l))%Z
  /\ (0 <= noiseReductionPercent (groupFindings l) <= 100)%Z.
Proof.
  assert (Hd : (0 <= duplicateCount (groupFindings l) <= Z.of_nat (length l))%Z).
  { rewrite duplicateCount_eq.
    pose proof (sublist_length _ _ (firsts_sublist l ∅)) as Hlen.
    rewrite <- uniqueFindings_firsts in Hlen. lia. }
  split; [exact Hd|].
  rewrite noiseReductionPercent_eq. by apply noise_percent_bounds.
Qed.

Lemma keep_scored_max t1 t2 f :
  keep_scored t2 f && keep_scored t1 f = keep_scored (js_max t1 t2) f.
Proof.
  unfold keep_scored, js_max. destruct (sf_riskScore f) as [q|]; [|done].
  destruct (Qeq_bool q 0); [done|].
  destruct (Qle_bool t1 t2) eqn:E12.
  - destruct (Qle_bool t2 q) eqn:E2; [|done]. simpl.
    apply Qle_bool_iff. apply Qle_bool_iff in E12, E2. by eapply Qle_trans.
  - destruct (Qle_bool t1 q) eqn:E1; [|by rewrite andb_false_r].
    rewrite andb_true_r. apply Qle_bool_iff. apply Qle_bool_iff in E1.
    apply Qle_trans with t1; [|done].
    apply Qlt_le_weak, Qnot_le_lt. intros H. apply Qle_bool_iff in H. congruence.
Qed.

(** X6.  [suppressBelowThreshold] never drops a finding without a score
    or with the score 0, whatever the threshold is; and suppressing twice
    is suppressing once with the larger threshold. *)
Theorem suppressBelowThreshold_zero_and_compose
        (l : list ScoredFinding) (t1 t2 : Q) :
  (forall f, f ∈ l ->
             sf_riskScore f = None
             \/ (exists q, sf_riskScore f = Some q /\ (q == 0)%Q) ->
             f ∈ suppressBelowThreshold l t1)
  /\ suppressBelowThreshold (suppressBelowThreshold l t1) t2
     = suppressBelowThreshold l (js_max t1 t2).
Proof.
  split.
  - intros f Hin Hscore. unfold suppressBelowThreshold.
    apply list_elem_of_In, filter_In. split; [by apply list_elem_of_In|].
    unfold keep_scored. destruct Hscore as [->|(q & -> & Hq)]; [done|].
    apply Qeq_bool_iff in Hq. by rewrite Hq.
  - unfold suppressBelowThreshold. induction l as [|f l IH]; [done|].
    cbn [List.filter]. rewrite <- keep_scored_max.
    destruct (keep_scored t1 f); cbn [List.filter];
      destruct (keep_scored t2 f); simpl; by rewrite IH.
Qed.

End GrouperInvariants.

(* ===================================================================== *)
(** ** Further theorems: RiskScorer *)
(* ===================================================================== *)

Module ScorerBounds.
Import Scorer Spec Invariants.

(** turn the boolean comparisons of a goal into facts that [lra] reads *)
Ltac q_cases :=
  repeat match goal with
  | |- context [Qle_bool ?a ?b] =>
      lazymatch a with context [Qle_bool _ _] => fail | _ => idtac end;
      lazymatch b with context [Qle_bool _ _] => fail | _ => idtac end;
      let E := fresh "E" in
      destruct (Qle_bool a b) eqn:E;
      [apply Qle_bool_iff in E
      |assert (b < a)%Q by (apply Qnot_le_lt; intros ?%Qle_bool_iff; congruence);
       clear E]
  end.

Lemma js_clamp_mono (x y : Q) :
  (x <= y)%Q ->
  (js_min 10 (js_max 0 x) <= js_min 10 (js_max 0 y))%Q
  /\ (js_max 0 (js_min 10 x) <= js_max 0 (js_min 10 y))%Q.
Proof. intros H. unfold js_min, js_max. split; q_cases; lra. Qed.

Lemma js_min_max_bounds (x : Q) :
  (0 <= js_min 10 (js_max 0 x) <= 10)%Q.
Proof. unfold js_min, js_max. q_cases; lra. Qed.

Lemma round1_bounds (x : Q) (n : Z) :
  (0 <= x)%Q -> (x <= inject_Z n)%Q ->
  (0 <= round1 x <= inject_Z n)%Q.
Proof.
  intros H0 Hn. unfold round1, js_round.
  assert (L : (inject_Z 0 <= x * 10 + (1 # 2))%Q) by (change (inject_Z 0) with 0%Q; lra).
  assert (U : (x * 10 + (1 # 2) <= inject_Z (n * 10) + (1 # 2))%Q).
  { rewrite inject_Z_mult. change (inject_Z 10) with 10%Q. lra. }
  apply Qfloor_resp_le in L, U. rewrite Qfloor_Z in L.
  assert (F : Qfloor (inject_Z (n * 10) + (1 # 2)) = (n * 10)%Z).
  { unfold Qfloor, Qplus, inject_Z. simpl.
    change (Z.pos (1 * 2)) with 2%Z.
    replace (n * 10 * 2 + 1 * 1)%Z with (1 + (n * 10) * 2)%Z by lia.
    rewrite Z.div_add by lia. reflexivity. }
  rewrite F in U.
  set (k := Qfloor (x * 10 + (1 # 2))) in *.
  assert (Hk : (inject_Z 0 <= inject_Z k <= inject_Z (n * 10))%Q).
  { split; rewrite <- Zle_Qle; lia. }
  rewrite inject_Z_mult in Hk. change (inject_Z 10) with 10%Q in Hk.
  change (inject_Z 0) with 0%Q in Hk.
  split; [apply Qle_shift_div_l | apply Qle_shift_div_r]; lra.
Qed.

Lemma cvss_weights (finding : SecurityFinding) :
  let c := calculateCVSSModifiers finding in
  (0 < attackComplexity c <= 1)%Q
  /\ (0 < privilegesRequired c <= 1)%Q
  /\ (scope c == 1 \/ scope c == 1.2)%Q.
Proof.
  cbv zeta. unfold calculateCVSSModifiers. cbv zeta. cbn [attackComplexity privilegesRequired scope].
  repeat match goal with
  | |- context [if ?b then _ else _] => destruct b
  end; cbn; repeat split; try lra; try (by left); try (by right).
Qed.

(** X7.  The [exploitLikelihood] of every returned score lies in [0,10]:
    the capped subtotal is only multiplied by weights that are at most 1. *)
Theorem exploitLikelihood_bounds (finding : SecurityFinding) :
  (0 <= exploitLikelihood (scoreFind finding) <= 10)%Q.
Proof.
  unfold scoreFind. cbv zeta. cbn [exploitLikelihood].
  pose proof (js_min_max_bounds) as Hb.
  pose proof (cvss_weights finding) as (Ha & Hp & _). cbv zeta in Ha, Hp.
  assert (He : (0 <= calculateExploitLikelihood finding <= 10)%Q).
  { unfold calculateExploitLikelihood. cbv zeta. apply Hb. }
  set (e := calculateExploitLikelihood finding) in *.
  set (a := attackComplexity (calculateCVSSModifiers finding)) in *.
  set (p := privilegesRequired (calculateCVSSModifiers finding)) in *.
  assert (Hea : (0 <= e * a <= 10)%Q) by nra.
  set (ea := (e * a)%Q) in *.
  change 10%Q with (inject_Z 10).
  apply round1_bounds; change (inject_Z 10) with 10%Q; nra.
Qed.

(** X8.  The [businessImpact] of every returned score lies in [0,12],
    and in [0,10] when the scope is UNCHANGED (weight 1). *)
Theorem businessImpact_bounds (finding : SecurityFinding) :
  (0 <= businessImpact (scoreFind finding) <= 12)%Q
  /\ ((scope (calculateCVSSModifiers finding) == 1)%Q ->
      (businessImpact (scoreFind finding) <= 10)%Q).
Proof.
  unfold scoreFind. cbv zeta. cbn [businessImpact].
  pose proof (cvss_weights finding) as (_ & _ & Hs). cbv zeta in Hs.
  assert (Hb : (0 <= calculateBusinessImpact finding <= 10)%Q).
  { unfold calculateBusinessImpact. cbv zeta. unfold js_min, js_max.
    q_cases; lra. }
  set (b := calculateBusinessImpact finding) in *.
  set (w := scope (calculateCVSSModifiers finding)) in *.
  split.
  - change 12%Q with (inject_Z 12).
    apply round1_bounds; change (inject_Z 12) with 12%Q;
      destruct Hs as [Hs|Hs]; nra.
  - intros Hw. change 10%Q with (inject_Z 10).
    apply round1_bounds; change (inject_Z 10) with 10%Q; nra.
Qed.

(** X9.  The temporal score always lies between 4.0 and 10.0, so its
    final clamping to [0,10] never changes it. *)
Theorem temporal_score_range (finding : SecurityFinding) :
  (4 <= calculateTemporalScore finding <= 10)%Q.
Proof.
  unfold calculateTemporalScore. cbv zeta. unfold bump.
  repeat match goal with
  | |- context [if ?b then _ else _] =>
      lazymatch b with context [Qle_bool _ _] => fail | _ => idtac end;
      destruct b
  end;
  destruct (Qle_bool 0.9 (confidence finding));
  vm_compute; split; discriminate.
Qed.

(** The severity enters [calculateExploitLikelihood] through its
    multiplier only, and [calculateBusinessImpact] through its bonus only. *)
Lemma exploit_shape (f : SecurityFinding) :
  exists raw, forall s,
    calculateExploitLikelihood (with_severity f s)
    = js_min 10 (js_max 0 (raw * exploit_severityMultiplier s
                               * exploit_categoryMultiplier (category f))).
Proof.
  eexists. intros s. unfold calculateExploitLikelihood.
  cbn [with_severity evidence description title category severity].
  reflexivity.
Qed.

Lemma impact_shape (f : SecurityFinding) :
  exists raw, forall s,
    calculateBusinessImpact (with_severity f s)
    = js_max 0 (js_min 10 (raw + impact_severityBonus s)).
Proof.
  eexists. intros s. unfold calculateBusinessImpact.
  cbn [with_severity description severity].
  reflexivity.
Qed.

(** X10.  With the same texts, a finding of higher severity gets no lower
    exploit likelihood and no lower business impact. *)
Theorem severity_monotone (f : SecurityFinding) (s1 s2 : Severity) :
  (severity_rank s1 <= severity_rank s2)%nat ->
  (calculateExploitLikelihood (with_severity f s1)
   <= calculateExploitLikelihood (with_severity f s2))%Q
  /\ (calculateBusinessImpact (with_severity f s1)
      <= calculateBusinessImpact (with_severity f s2))%Q.
Proof.
  intros Hrank.
  destruct (exploit_shape f) as [raw He].
  destruct (impact_shape f) as [rawi Hi].
  rewrite !He, !Hi. clear He Hi. split.
  - unfold exploit_categoryMultiplier.
    repeat match goal with
    | |- context [if includes ?a ?b then _ else _] => destruct (includes a b)
    end;
    destruct s1, s2; simpl in Hrank; try lia;
      unfold exploit_severityMultiplier, js_min, js_max; q_cases; lra.
  - destruct s1, s2; simpl in Hrank; try lia;
      unfold impact_severityBonus, js_min, js_max; q_cases; lra.
Qed.

Lemma lower_char_not_upper (c : ascii) : is_upper (lower_char c) = false.
Proof. destruct c as [[] [] [] [] [] [] [] []]; reflexivity. Qed.

Lemma prefix_lower_upper (t : string) : forall s,
  has_upper t = true -> String.prefix t (toLowerCase s) = false.
Proof.
  induction t as [|c t IH]; intros s; simpl; [done|].
  destruct s as [|d s]; simpl; [done|]. intros H.
  destruct (ascii_dec c (lower_char d)) as [->|Hne]; [|done].
  rewrite lower_char_not_upper in H. simpl in H. by apply IH.
Qed.

(** A lower-cased text contains no text that has a capital letter. *)
Lemma includes_lower_upper (t s : string) :
  has_upper t = true -> includes (toLowerCase s) t = false.
Proof.
  intros H. induction s as [|d s IH]; simpl.
  - destruct t; [done|reflexivity].
  - rewrite IH, orb_false_r.
    apply (prefix_lower_upper t (String d s) H).
Qed.

(** X11.  The tests that look for a text with a capital letter in the
    lower-cased evidence never succeed: the [hostNetwork] factor is decided
    by the description alone, and the evidence texts "hostNetwork: true"
    and "runAsNonRoot: false" of the exploit score are never found. *)
Theorem evidence_capital_tests_dead (finding : SecurityFinding) :
  hostNetwork (extractFactors finding)
  = includes (toLowerCase (description finding)) "hostnetwork"
  /\ includes (toLowerCase (evidence finding)) "hostNetwork: true" = false
  /\ includes (toLowerCase (evidence finding)) "runAsNonRoot: false" = false.
Proof.
  unfold extractFactors. cbn [hostNetwork].
  rewrite (includes_lower_upper "hostNetwork" (evidence finding)) by reflexivity.
  rewrite orb_false_r. repeat split; by apply includes_lower_upper.
Qed.

End ScorerBounds.

(* ===================================================================== *)
(** ** Further theorems: Validator *)
(* ===================================================================== *)

Module ValidatorFacts.
Import Validator Spec Invariants.












End ValidatorFacts.

(* ===================================================================== *)
(** ** Further theorems: RollbackManager *)
(* ===================================================================== *)

Module RollbackFacts.
Import RollbackManager Spec Invariants RollbackProofs.

Lemma set_files_same fs : set_files (files fs) fs = fs.
Proof. by destruct fs. Qed.

Lemma restoreEntries_spec items : forall fs,
  restoreEntries items fs
  = (entry_result (unwritable fs) <$> items,
     set_files (restored_files (unwritable fs) items (files fs)) fs).
Proof.
  induction items as [|item rest IH]; intros fs.
  - simpl. by rewrite set_files_same.
  - cbn [restoreEntries]. unfold writeFile, entry_result at 1.
    csimpl. unfold restored_files. cbn [fold_left].
    destruct (decide (e_resource item ∈ unwritable fs)) as [Hin|Hnot].
    + rewrite IH, bool_decide_eq_false_2 by (intros H; by apply H). done.
    + rewrite IH, bool_decide_eq_true_2 by done. done.
Qed.

(** X14.  [rollback] of a stored snapshot reports exactly one result per
    entry, in the order of the entries; the result of an entry is a
    success exactly when its resource can be written, and a failing entry
    does not stop the ones after it. *)
Theorem rollback_one_result_per_entry
        (sid : string) (fs : FS) (snapshot : Snapshot) :
  snapshots fs !! sid = Some snapshot ->
  (rollback sid fs).1
  = (fun e => mkRollbackResult (patchId e)
                               (bool_decide (e_resource e ∉ unwritable fs)))
      <$> s_patches snapshot.
Proof.
  intros Hs. unfold rollback. rewrite Hs, restoreEntries_spec. done.
Qed.

Lemma rollback_frame_all sid fs :
  unwritable (rollback sid fs).2 = unwritable fs
  /\ snapshots (rollback sid fs).2 = snapshots fs.
Proof.
  unfold rollback. destruct (snapshots fs !! sid) as [snap|]; [|done].
  rewrite restoreEntries_spec. cbn [snd].
  unfold recordRollback. by destruct (historyWritable _).
Qed.

Lemma restored_files_lookup unw items path (m : gmap string string) :
  restored_files unw items m !! path
  = match last_content unw path items with
    | Some c => Some c
    | None => m !! path
    end.
Proof.
  unfold restored_files, last_content.
  assert (G : forall (m' : gmap string string) (o : option string),
    m' !! path = match o with Some c => Some c | None => m !! path end ->
    fold_left (fun m e => if decide (e_resource e ∈ unw) then m
                          else <[e_resource e := originalContent e]> m) items m'
      !! path
    = match fold_left (fun o e => if decide (e_resource e ∈ unw) then o
                                  else if decide (e_resource e = path)
                                       then Some (originalContent e) else o)
                      items o with
      | Some c => Some c
      | None => m !! path
      end).
  { induction items as [|e rest IH]; intros m' o Hinv; simpl; [exact Hinv|].
    apply IH. destruct (decide (e_resource e ∈ unw)); [exact Hinv|].
    destruct (decide (e_resource e = path)) as [->|Hne].
    - apply lookup_insert_eq.
    - by rewrite lookup_insert_ne. }
  by apply G.
Qed.

Lemma restored_files_idempotent unw items (m : gmap string string) :
  restored_files unw items (restored_files unw items m)
  = restored_files unw items m.
Proof.
  apply map_eq. intros path. rewrite !restored_files_lookup.
  by destruct (last_content unw path items).
Qed.


(** X15.  Rolling back the same snapshot a second time changes no file
    and reports the same results as the first time. *)
Theorem rollback_idempotent (sid : string) (fs : FS) :
  files (rollback sid (rollback sid fs).2).2 = files (rollback sid fs).2
  /\ (rollback sid (rollback sid fs).2).1 = (rollback sid fs).1.
Proof.
  pose proof (rollback_frame_all sid fs) as (Huw & Hss).
  unfold rollback in *.
  destruct (snapshots fs !! sid) as [snap|] eqn:Hs.
  - rewrite restoreEntries_spec in *. cbn [fst snd] in *.
    set (fs1 := recordRollback sid _ _) in *.
    rewrite Hss, Hs, restoreEntries_spec. cbn [fst snd].
    rewrite Huw. split; [|done].
    assert (Hf : files fs1
                 = restored_files (unwritable fs) (s_patches snap) (files fs)).
    { subst fs1. unfold recordRollback. by destruct (historyWritable _). }
    assert (Hf2 : forall r f, files (recordRollback sid r f) = files f).
    { intros r f. unfold recordRollback. by destruct (historyWritable f). }
    rewrite Hf2. cbn [files set_files]. rewrite Hf.
    apply restored_files_idempotent.
  - simpl. by rewrite Hs.
Qed.


Lemma rollback_history sid fs snapshot :
  snapshots fs !! sid = Some snapshot ->
  history (rollback sid fs).2
  = if historyWritable fs
    then Some (default [] (history fs)
               ++ [mkRollbackRecord sid
                     (rollbackSuccessRatio (rollback sid fs).1)
                     (rollback sid fs).1])
    else history fs.
Proof.
  intros Hs. unfold rollback. rewrite Hs, restoreEntries_spec. cbn [fst snd].
  unfold recordRollback. cbn [historyWritable set_files history].
  by destruct (historyWritable fs).
Qed.


Lemma ratio_stored_bounds (results : list RollbackResult) :
  (0 <= stored_rate (rollbackSuccessRatio results) <= 1)%Q.
Proof.
  unfold rollbackSuccessRatio.
  pose proof (filter_length_le success results) as Hle.
  set (k := length (List.filter success results)) in *.
  destruct (length results) as [|n] eqn:En.
  - assert (k = 0%nat) as -> by lia. simpl. lra.
  - unfold js_div. cbn [stored_rate]. unfold Qle. simpl.
    assert (Hp : Z.pos (Pos.of_succ_nat n) = Z.of_nat (S n)).
    { by rewrite Zpos_P_of_succ_nat, Nat2Z.inj_succ. }
    destruct n; simpl in *; lia.
Qed.

Lemma stored_sum_bounds (h : list RollbackRecord) :
  recorded_by_rollback h ->
  forall acc,
    (0 <= acc)%Q ->
    (0 <= fold_left (fun sum r => sum + stored_rate (successRate r))%Q h acc
     <= acc + inject_Z (Z.of_nat (length h)))%Q.
Proof.
  induction 1 as [|r h Hr Hh IH]; intros acc Hacc; simpl.
  - change (inject_Z (Z.of_nat 0)) with 0%Q. lra.
  - pose proof (ratio_stored_bounds (details r)) as Hb. rewrite <- Hr in Hb.
    destruct (IH (acc + stored_rate (successRate r))%Q) as [H1 H2]; [lra|].
    split; [exact H1|].
    rewrite Nat2Z.inj_succ, <- Z.add_1_r, inject_Z_plus.
    change (inject_Z 1) with 1%Q. lra.
Qed.

(** X18.  A history in which every record carries the ratio of its own
    results stays such a history when [rollback] appends to it, and
    [getRollbackStats] then reports a success rate between 0 and 1. *)
Theorem rollback_stats_bounds (sid : string) (fs : FS) :
  history_ok fs ->
  history_ok (rollback sid fs).2
  /\ (0 <= stats_successRate (getRollbackStats fs) <= 1)%Q.
Proof.
  intros Hok. split.
  - destruct (snapshots fs !! sid) as [snap|] eqn:Hs.
    + intros h. rewrite (rollback_history _ _ _ Hs).
      destruct (historyWritable fs); [|apply Hok].
      intros [= <-]. apply Forall_app. split.
      * destruct (history fs) as [h0|] eqn:Hh; [by apply Hok|constructor].
      * by repeat constructor.
    + unfold rollback. rewrite Hs. exact Hok.
  - unfold getRollbackStats. destruct (history fs) as [h|] eqn:Hh; [|simpl; lra].
    destruct (length h) as [|n] eqn:En; [simpl; lra|]. cbn [stats_successRate].
    destruct (stored_sum_bounds h (Hok h Hh) 0%Q) as [H1 H2]; [lra|].
    rewrite En in H2.
    assert (Hpos : (0 < inject_Z (Z.of_nat (S n)))%Q).
    { change 0%Q with (inject_Z 0). rewrite <- Zlt_Qlt. lia. }
    split; [apply Qle_shift_div_l | apply Qle_shift_div_r]; try exact Hpos; lra.
Qed.

End RollbackFacts.

(* ===================================================================== *)
(** ** Further theorems: the statistics of the Orchestrator *)
(* ===================================================================== *)

Module StatisticsFacts.
Import Grouper RollbackManager Orchestrator Spec Invariants GrouperInvariants.

Lemma tally_lookup key (m : gmap string nat) k :
  default 0%nat (tally key m !! k)
  = (default 0%nat (m !! k) + if String.eqb key k then 1 else 0)%nat.
Proof.
  unfold tally. destruct (String.eqb_spec key k) as [->|Hne].
  - by rewrite lookup_insert_eq.
  - rewrite lookup_insert_ne by done. lia.
Qed.

Lemma tally_fold (key : SecurityFinding -> string) l k : forall m : gmap string nat,
  default 0%nat (fold_left (fun m f => tally (key f) m) l m !! k)
  = (default 0%nat (m !! k)
     + length (List.filter (fun f => String.eqb (key f) k) l))%nat.
Proof.
  induction l as [|f l IH]; intros m; simpl; [lia|].
  rewrite IH, tally_lookup. destruct (String.eqb (key f) k); simpl; lia.
Qed.


Lemma severity_name_eqb a b :
  String.eqb (severity_name a) (severity_name b)
  = (severity_rank a =? severity_rank b)%nat.
Proof. by destruct a, b. Qed.

Lemma count_severity_total (l : list SecurityFinding) :
  (count_severity critical l + count_severity high l + count_severity medium l
   + count_severity low l + count_severity info l)%nat = length l.
Proof.
  unfold count_severity. induction l as [|f l IH]; [done|].
  simpl in *. destruct (severity f); simpl; lia.
Qed.

(** X19.  In the statistics, each of [criticalCount], [highCount],
    [mediumCount] and [lowCount] is the number of unique findings of that
    severity; findings of severity info are in none of them, so the four
    counters and the info findings add up to [uniqueFindings]. *)
Theorem severity_counters
        (groupingResult : GroupingResult) (findings : list SecurityFinding)
        (patches : list SecurityPatch) (vr : list ValidationResult)
        (rr : list RollbackResult) :
  let st := computeStatistics groupingResult findings patches vr rr in
  let u := uniqueFindings groupingResult in
  criticalCount st = count_severity critical u
  /\ highCount st = count_severity high u
  /\ mediumCount st = count_severity medium u
  /\ lowCount st = count_severity low u
  /\ (criticalCount st + highCount st + mediumCount st + lowCount st
      + count_severity info u)%nat = st_uniqueFindings st.
Proof.
  cbv zeta.
  assert (H : forall s,
    default 0%nat
      (fold_left (fun m f => tally (severity_name (severity f)) m)
                 (uniqueFindings groupingResult) (∅ : gmap string nat)
         !! severity_name s)
    = count_severity s (uniqueFindings groupingResult)).
  { intros s. rewrite tally_fold, lookup_empty. simpl. unfold count_severity.
    f_equal. apply filter_ext. intros f. apply severity_name_eqb. }
  unfold computeStatistics.
  cbn [criticalCount highCount mediumCount lowCount st_uniqueFindings].
  change "critical" with (severity_name critical).
  change "high" with (severity_name high).
  change "medium" with (severity_name medium).
  change "low" with (severity_name low).
  rewrite (H critical), (H high), (H medium), (H low).
  repeat split. apply count_severity_total.
Qed.


End StatisticsFacts.

(* ===================================================================== *)
(** ** Further theorems: the run of the Orchestrator *)
(* ===================================================================== *)

Module RunFacts.
Import Grouper RollbackManager Orchestrator Spec Invariants.
Import GrouperProofs RollbackProofs OrchestratorProofs GrouperInvariants.
Import RollbackFacts.

Lemma array_sort_length {A} (cmp : A -> A -> Z) (l : list A) :
  length (array_sort cmp l) = length l.
Proof.
  induction l as [|x l IH]; simpl; [done|]. rewrite <- IH.
  generalize (array_sort cmp l). clear. intros l.
  induction l as [|y l IH]; simpl; [done|].
  destruct (cmp x y <=? 0)%Z; simpl; [done|]. by rewrite IH.
Qed.

Lemma applyPatches_length patches : forall fs,
  length (applyPatches patches fs).1.2 = length patches.
Proof.
  induction patches as [|p ps IH]; intros fs; simpl; [done|].
  destruct (writeFile fs _ _) as [fs1|]; [|done].
  specialize (IH fs1). destruct (applyPatches ps fs1) as [[ok r] f].
  simpl in *. by rewrite IH.
Qed.

(** the shape of every report that [harden] returns *)
Lemma harden_report options findings patches sid fs report fs' log :
  harden options findings patches sid fs = Returned report fs' log ->
  statistics report
  = computeStatistics (groupFindings findings) findings (rp_patches report)
                      (validatePatches patches) (rollbackResults report)
  /\ rp_findings report = findings
  /\ groupedFindings report = groups (groupFindings findings)
  /\ prioritizedPlan report
     = scoreFindings (uniqueFindings (groupFindings findings))
  /\ validationResults report = validatePatches patches
  /\ length (rp_patches report) = length patches.
Proof.
  unfold harden.
  destruct (apply options && negb (dryRun options)).
  - destruct (if enableRollback options then _ else _) as [[[s f1] l1]|]; [|done].
    pose proof (applyPatches_length patches f1) as Hlen.
    destruct (applyPatches patches f1) as [[ok ps] f2]. simpl in Hlen.
    destruct (enableRollback options && _ && truthy s).
    + destruct (rollback s f2) as [rs f3]. intros [= <- _ _]. by repeat split.
    + intros [= <- _ _]. by repeat split.
  - intros [= <- _ _]. by repeat split.
Qed.

(** X21.  The report that a run returns is consistent: [totalFindings] is
    the number of raw findings, unique and duplicate findings add up to
    it, there is one group and one plan entry per unique finding, one
    validation result per patch, and [patchedCount] does not exceed the
    number of patches. *)
Theorem report_counts_consistent
        (options : OrchestratorOptions) (findings : list SecurityFinding)
        (patches : list SecurityPatch) (sid : string) (fs : FS) :
  match harden options findings patches sid fs with
  | Returned report _ _ =>
      let st := statistics report in
      totalFindings st = length (rp_findings report)
      /\ (Z.of_nat (st_uniqueFindings st) + duplicateFindings st
          = Z.of_nat (totalFindings st))%Z
      /\ groupCount st = st_uniqueFindings st
      /\ length (groupedFindings report) = st_uniqueFindings st
      /\ length (prioritizedPlan report) = st_uniqueFindings st
      /\ length (validationResults report) = length (rp_patches report)
      /\ (patchedCount st <= length (rp_patches report))%nat
  | Thrown _ _ => True
  end.
Proof.
  destruct (harden options findings patches sid fs) as [report fs' log|] eqn:E;
    [|done].
  apply harden_report in E as (Hst & Hf & Hg & Hp & Hv & Hlen).
  cbv zeta. rewrite Hst, Hf, Hg, Hp, Hv.
  unfold computeStatistics.
  cbn [totalFindings st_uniqueFindings duplicateFindings groupCount patchedCount].
  pose proof (groups_length findings) as Hgl.
  repeat split.
  - rewrite duplicateCount_eq. lia.
  - exact Hgl.
  - exact Hgl.
  - unfold scoreFindings. by rewrite array_sort_length, length_fmap.
  - unfold validatePatches. by rewrite length_fmap.
  - apply filter_length_le.
Qed.






Lemma pass_rate_below_one (vr : list ValidationResult) :
  js_lt (js_div (length (List.filter passed vr)) (length vr)) 1.0%Q = true
  <-> exists r, r ∈ vr /\ passed r = false.
Proof.
  assert (Hcount : (length (List.filter passed vr) < length vr)%nat
                   <-> exists r, r ∈ vr /\ passed r = false).
  { induction vr as [|r vr IH]; simpl.
    - split; [lia|]. by intros (r & ?%elem_of_nil & _).
    - pose proof (filter_length_le passed vr) as Hle.
      destruct (passed r) eqn:Hr; simpl.
      + rewrite <- Nat.succ_lt_mono, IH. split.
        * intros (x & Hx & Hp). exists x. split; [by right|done].
        * intros (x & [->|Hx]%elem_of_cons & Hp); [congruence|]. by exists x.
      + split; [|lia]. intros _. exists r. split; [left|done]. }
  rewrite <- Hcount. clear Hcount.
  pose proof (filter_length_le passed vr) as Hle.
  set (k := length (List.filter passed vr)) in *.
  destruct (length vr) as [|n].
  - assert (k = 0%nat) as -> by lia. simpl. split; [done|lia].
  - unfold js_div, js_lt. rewrite negb_true_iff.
    assert (Hq : Qle_bool 1.0 (Z.of_nat k # Pos.of_nat (S n)) = true
                 <-> (S n <= k)%nat).
    { rewrite Qle_bool_iff. unfold Qle. simpl.
      assert (Hp : Z.pos (Pos.of_nat (S n)) = Z.of_nat (S n)).
      { rewrite <- (Nat2Pos.id (S n)) at 2 by done. by rewrite positive_nat_Z. }
      rewrite Hp. lia. }
    destruct (decide (S n <= k)%nat) as [Hge|Hlt].
    + pose proof (proj2 Hq Hge) as Ht. rewrite Ht. split; [done|lia].
    + destruct (Qle_bool 1.0 _); [|split; [lia|done]].
      exfalso. apply Hlt. by apply Hq.
Qed.

(** X24.  In apply mode with rollback enabled (the snapshot persisted
    under a non-empty identifier), the rollback stage runs exactly when
    some patch failed validation before the apply step: whether the
    writes of the apply step succeeded plays no role. *)
Theorem rollback_triggered_iff_validation_failed
        (options : OrchestratorOptions) (findings : list SecurityFinding)
        (patches : list SecurityPatch) (sid : string) (fs : FS) :
  apply options = true -> dryRun options = false ->
  enableRollback options = true ->
  snapshotDirWritable fs = true -> truthy sid = true ->
  LogRollbackTriggered ∈ outcome_log (harden options findings patches sid fs)
  <-> exists p, p ∈ patches /\ passed (Validator.validatePatch p) = false.
Proof.
  intros Ha Hd Hr Hw Hsid.
  assert (Hv : (exists p, p ∈ patches /\ passed (Validator.validatePatch p) = false)
               <-> js_lt (js_div (length (List.filter passed (validatePatches patches)))
                                 (length (validatePatches patches))) 1.0%Q = true).
  { rewrite pass_rate_below_one. unfold validatePatches. split.
    - intros (p & Hp & Hf). exists (Validator.validatePatch p).
      split; [|done]. apply list_elem_of_fmap. by exists p.
    - intros (r & (p & -> & Hp)%list_elem_of_fmap & Hf). by exists p. }
  rewrite Hv. clear Hv.
  unfold harden. rewrite Ha, Hd, Hr. cbn [andb negb].
  unfold createSnapshot. rewrite Hw, Hsid.
  destruct (applyPatches patches _) as [[ok ps] f2].
  destruct (js_lt _ _); cbn [andb].
  - destruct (rollback sid f2) as [rs f3]. cbn [outcome_log]. split; [done|].
    intros _. cbn. do 4 right. left.
  - cbn [outcome_log]. split; [absent_from_log|done].
Qed.




Lemma snapshotEntries_all_readable patches fs :
  Forall (fun p => is_Some (readFile fs (p_resource p))) patches ->
  length (snapshotEntries patches fs) = length patches.
Proof.
  induction 1 as [|p ps [c Hc] Hps IH]; simpl; [done|].
  rewrite Hc. simpl. by rewrite IH.
Qed.



End RunFacts.

(* ===================================================================== *)
(** ** Further theorems: PatchEngine and ConfigReader *)
(* ===================================================================== *)

Module PatchEngineFacts.
Import PatchEngine ConfigReader Spec Invariants.

Lemma line_at_map (f : string -> string) (l : list string) :
  (fun i => f (line_at l i)) <$> seq 0 (length l) = f <$> l.
Proof.
  apply list_eq. intros i. rewrite !list_lookup_fmap.
  destruct (decide (i < length l)%nat) as [Hlt|Hge].
  - rewrite lookup_seq_lt by done. simpl. unfold line_at.
    destruct (lookup_lt_is_Some_2 l i Hlt) as [x Hx]. by rewrite Hx.
  - rewrite lookup_seq_ge by lia. by rewrite lookup_ge_None_2 by lia.
Qed.

Lemma diff_step_same (line : string) : diff_step line line = [context_line line].
Proof. unfold diff_step. by rewrite String.eqb_refl. Qed.

Lemma flat_map_singleton {A B} (f : A -> B) (l : list A) :
  flat_map (fun x => [f x]) l = f <$> l.
Proof. induction l as [|x l IH]; [done|]. simpl. by rewrite IH. Qed.

Lemma flat_map_ext_elem {A B} (f g : A -> list B) (l : list A) :
  (forall x, x ∈ l -> f x = g x) -> flat_map f l = flat_map g l.
Proof.
  induction l as [|x l IH]; intros H; [done|]. simpl.
  rewrite (H x) by left. rewrite IH; [done|]. intros y Hy. apply H. by right.
Qed.

Lemma split_onto_app_LF (s : string) : forall cur,
  split_onto cur (s +:+ LF) = split_onto cur s ++ [EmptyString].
Proof.
  induction s as [|c s IH]; intros cur; simpl; [done|].
  destruct (nat_of_ascii c =? 10)%nat; simpl; by rewrite IH.
Qed.

(** X26.  The diff of a content against itself consists of one context
    line per line and nothing else; and a line feed added at the end of
    the content is not reported as a change either (the added empty last
    line shows as one more context line), although the contents differ. *)
Theorem diff_without_change_lines (content : string) :
  diffLines content content = context_line <$> split_lines content
  /\ diffLines content (content +:+ LF)
     = (context_line <$> split_lines content) ++ [context_line ""].
Proof.
  unfold diffLines. cbv zeta. split.
  - rewrite Nat.max_id.
    rewrite (flat_map_ext _ (fun i => [context_line (line_at (split_lines content) i)]))
      by (intros i; apply diff_step_same).
    rewrite flat_map_singleton. apply (line_at_map context_line).
  - unfold split_lines. rewrite split_onto_app_LF.
    set (l := split_onto EmptyString content).
    rewrite length_app. simpl.
    replace (length l `max` (length l + 1))%nat with (S (length l)) by lia.
    rewrite seq_S, flat_map_app. simpl. f_equal.
    + rewrite <- (line_at_map context_line l), <- flat_map_singleton.
      apply flat_map_ext_elem. intros i Hi%elem_of_seq.
      unfold line_at. rewrite lookup_app_l by lia. apply diff_step_same.
    + unfold line_at. rewrite lookup_ge_None_2 by lia.
      rewrite lookup_app_r by lia. rewrite Nat.sub_diag. simpl.
      reflexivity.
Qed.

Lemma append_cons (x : ascii) (a b : string) :
  String x a +:+ b = String x (a +:+ b).
Proof. reflexivity. Qed.

Lemma append_assoc (a b c : string) : (a +:+ b) +:+ c = a +:+ (b +:+ c).
Proof. induction a as [|x a IH]; [done|]. by rewrite !append_cons, IH. Qed.

Lemma append_empty_r (a : string) : a +:+ "" = a.
Proof. induction a as [|x a IH]; [done|]. by rewrite append_cons, IH. Qed.

Lemma rev_string_onto_app (s : string) : forall acc,
  rev_string_onto s acc = rev_string s +:+ acc.
Proof.
  unfold rev_string. induction s as [|c s IH]; intros acc; simpl; [done|].
  rewrite (IH (String c acc)), (IH (String c EmptyString)).
  by rewrite append_assoc.
Qed.

Lemma split_onto_nonempty (s : string) : forall cur, split_onto cur s <> [].
Proof.
  induction s as [|c s IH]; intros cur; simpl; [done|].
  destruct (nat_of_ascii c =? 10)%nat; [done|apply IH].
Qed.

Lemma join_cons (sep p : string) (l : list string) :
  l <> [] -> join sep (p :: l) = p +:+ sep +:+ join sep l.
Proof. by destruct l. Qed.

(** joining the lines again gives the text back *)
Lemma join_split_onto (s : string) : forall cur,
  join LF (split_onto cur s) = rev_string cur +:+ s.
Proof.
  induction s as [|c s IH]; intros cur; simpl.
  - by rewrite append_empty_r.
  - destruct (nat_of_ascii c =? 10)%nat eqn:E.
    + apply Nat.eqb_eq in E.
      assert (c = ascii_of_nat 10) as ->.
      { by rewrite <- (ascii_nat_embedding c), E. }
      rewrite join_cons by apply split_onto_nonempty.
      rewrite IH. reflexivity.
    + rewrite IH. unfold rev_string at 1. simpl.
      rewrite rev_string_onto_app, append_assoc. reflexivity.
Qed.

Lemma split_lines_inj (s1 s2 : string) :
  split_lines s1 = split_lines s2 -> s1 = s2.
Proof.
  intros H. pose proof (join_split_onto s1 EmptyString) as H1.
  pose proof (join_split_onto s2 EmptyString) as H2.
  unfold split_lines in H. rewrite H in H1.
  change (rev_string "" +:+ s1) with s1 in H1.
  change (rev_string "" +:+ s2) with s2 in H2. congruence.
Qed.

Lemma differ_somewhere (l1 l2 : list string) :
  length l1 = length l2 -> l1 <> l2 ->
  exists i x y, l1 !! i = Some x /\ l2 !! i = Some y /\ x <> y.
Proof.
  revert l2. induction l1 as [|a l1 IH]; intros [|b l2] Hlen Hne; try done.
  destruct (decide (a = b)) as [->|Hab].
  - destruct (IH l2) as (i & x & y & H1 & H2 & Hxy); [by inversion Hlen|congruence|].
    by exists (S i), x, y.
  - by exists 0%nat, a, b.
Qed.

Lemma diff_step_change (x y : string) :
  x <> y -> exists line, line ∈ diff_step x y /\ is_change line = true.
Proof.
  intros Hxy. unfold diff_step, nonempty.
  destruct (String.eqb_spec x y) as [|_]; [done|]. simpl.
  destruct (String.eqb_spec x "") as [->|Hx]; simpl.
  - destruct (String.eqb_spec y "") as [->|Hy]; [done|]. simpl.
    exists ("+ " +:+ y). split; [left|]. unfold is_change. cbn.
    by destruct y.
  - exists ("- " +:+ x). split; [left|]. unfold is_change. cbn.
    by destruct x.
Qed.

(** X27.  When the two contents differ and have the same number of lines,
    the diff holds at least one removal or addition line. *)
Theorem diff_reports_change (before after : string) :
  before <> after ->
  length (split_lines before) = length (split_lines after) ->
  exists line, line ∈ diffLines before after /\ is_change line = true.
Proof.
  intros Hne Hlen.
  destruct (differ_somewhere (split_lines before) (split_lines after) Hlen)
    as (i & x & y & Hx & Hy & Hxy).
  { intros H. by apply Hne, split_lines_inj. }
  destruct (diff_step_change x y Hxy) as (line & Hin & Hch).
  exists line. split; [|exact Hch].
  unfold diffLines. cbv zeta. apply list_elem_of_In, in_flat_map.
  exists i. split.
  - apply in_seq. apply lookup_lt_Some in Hx. lia.
  - unfold line_at. rewrite Hx, Hy. by apply list_elem_of_In.
Qed.

Lemma generatePatches_sources
      (templates : list PatchTemplate) (findings : list SecurityFinding)
      (fs : FS) :
  (length (generatePatches templates findings fs) <= length findings)%nat
  /\ Forall (fun patch =>
               exists finding template content,
                 finding ∈ findings
                 /\ List.find (fun t => findingPattern t finding) templates
                    = Some template
                 /\ readFile fs (resource finding) = Some content
                 /\ generatePatch template finding content = Some patch)
            (generatePatches templates findings fs).
Proof.
  induction findings as [|f fs' [IHl IHp]]; simpl; [split; [done|constructor]|].
  assert (Hweak : Forall (fun patch =>
               exists finding template content,
                 finding ∈ f :: fs'
                 /\ List.find (fun t => findingPattern t finding) templates
                    = Some template
                 /\ readFile fs (resource finding) = Some content
                 /\ generatePatch template finding content = Some patch)
            (generatePatches templates fs' fs)).
  { eapply Forall_impl; [exact IHp|]. intros p (g & t & c & Hg & Hrest).
    exists g, t, c. split; [by right|exact Hrest]. }
  destruct (List.find _ templates) as [t|] eqn:Ef; [|split; [lia|done]].
  destruct (readFile fs (resource f)) as [c|] eqn:Er; [|split; [lia|done]].
  destruct (generatePatch t f c) as [p|] eqn:Eg; [|split; [lia|done]].
  split; [simpl; lia|]. constructor; [|exact Hweak].
  exists f, t, c. split; [left|done].
Qed.

(** X28.  [generatePatches] emits at most one patch per finding, and every
    patch it emits was produced by the first template that accepts one of
    the findings, from the content read from that finding's resource. *)
Theorem generatePatches_provenance
        (templates : list PatchTemplate) (findings : list SecurityFinding)
        (fs : FS) :
  (length (generatePatches templates findings fs) <= length findings)%nat
  /\ Forall (fun patch =>
               exists finding template content,
                 finding ∈ findings
                 /\ List.find (fun t => findingPattern t finding) templates
                    = Some template
                 /\ readFile fs (resource finding) = Some content
                 /\ generatePatch template finding content = Some patch)
            (generatePatches templates findings fs).
Proof. apply generatePatches_sources. Qed.

Lemma toLowerCase_idempotent (s : string) :
  toLowerCase (toLowerCase s) = toLowerCase s.
Proof.
  induction s as [|c s IH]; simpl; [done|]. rewrite IH. f_equal.
  unfold lower_char at 1. by rewrite ScorerBounds.lower_char_not_upper.
Qed.

(** X29.  [normalizeSeverity] recognises the four names critical, high,
    medium and low in any capitalisation, maps a missing or empty value to
    high and every other text to info. *)
Theorem normalizeSeverity_cases :
  (forall s, normalizeSeverity (Some (severity_name s)) = s)
  /\ (forall x, normalizeSeverity (Some x)
                = normalizeSeverity (Some (toLowerCase x)))
  /\ normalizeSeverity None = high
  /\ normalizeSeverity (Some "") = high
  /\ (forall x, x <> "" ->
                toLowerCase x <> "critical" -> toLowerCase x <> "high" ->
                toLowerCase x <> "medium" -> toLowerCase x <> "low" ->
                normalizeSeverity (Some x) = info).
Proof.
  split; [by intros []|]. split; [|split; [done|split; [done|]]].
  - intros x. unfold normalizeSeverity.
    destruct x as [|c x]; [done|].
    change (String.eqb (String c x) "") with false.
    change (String.eqb (toLowerCase (String c x)) "") with false.
    cbv iota. by rewrite toLowerCase_idempotent.
  - intros x Hx H1 H2 H3 H4. unfold normalizeSeverity.
    destruct (String.eqb_spec x "") as [|_]; [done|].
    destruct (String.eqb_spec (toLowerCase x) "critical"); [done|].
    destruct (String.eqb_spec (toLowerCase x) "high"); [done|].
    destruct (String.eqb_spec (toLowerCase x) "medium"); [done|].
    by destruct (String.eqb_spec (toLowerCase x) "low").
Qed.

End PatchEngineFacts.

(* ===================================================================== *)
(** ** Further theorems: the run on one disk *)
(* ===================================================================== *)

Module PipelineFacts.
Import Grouper RollbackManager Orchestrator PatchEngine Pipeline Spec Invariants.
Import RollbackProofs OrchestratorProofs PatchEngineFacts.

Lemma generated_patches_readable templates findings fs :
  templates_keep_resource templates ->
  Forall (fun p => is_Some (readFile fs (p_resource p)))
         (generatePatches templates findings fs).
Proof.
  intros Hkeep.
  destruct (generatePatches_sources templates findings fs) as [_ H].
  eapply Forall_impl; [exact H|].
  intros p (f & t & c & _ & Hfind & Hread & Hgen). simpl.
  apply find_some in Hfind as [Ht%list_elem_of_In _].
  rewrite (Hkeep t f c p Ht Hgen). by exists c.
Qed.

(** X30.  When the disk does not change between patch generation and the
    apply step, and with templates that patch the resource of their
    finding, a run in apply mode with rollback enabled stores a snapshot
    entry with the pre-image for every patch of the batch (so no resource
    is written without one); if the snapshot cannot be persisted the disk
    is left untouched. *)
Theorem unchanged_disk_every_patch_has_entry
        (options : OrchestratorOptions) (templates : list PatchTemplate)
        (findings : list SecurityFinding) (sid : string) (fs : FS) :
  templates_keep_resource templates ->
  apply options = true -> dryRun options = false ->
  enableRollback options = true ->
  match hardenOnDisk options templates findings sid fs with
  | Thrown fs' _ => fs' = fs
  | Returned report fs' _ =>
      exists snapshot,
        snapshots fs' !! sid = Some snapshot
        /\ length (s_patches snapshot) = length (rp_patches report)
        /\ (forall p', p' ∈ rp_patches report ->
              exists content,
                readFile fs (p_resource p') = Some content
                /\ mkEntry (p_id p') (p_resource p') content
                     ∈ s_patches snapshot)
  end.
Proof.
  intros Hkeep Ha Hd Hr. unfold hardenOnDisk.
  set (patches := generatePatches templates _ fs).
  pose proof (generated_patches_readable templates
                (uniqueFindings (groupFindings findings)) fs Hkeep) as Hread.
  fold patches in Hread.
  unfold harden. rewrite Ha, Hd, Hr. cbn [andb negb].
  destruct (createSnapshot sid patches fs) as [fs1|] eqn:Hsnap; [|done].
  apply createSnapshot_Some in Hsnap.
  pose proof (applyPatches_frame patches fs1) as (_ & _ & Hss & _).
  pose proof (applyPatches_same_patches patches fs1) as Hsame.
  pose proof (RunFacts.applyPatches_length patches fs1) as Hlen.
  destruct (applyPatches patches fs1) as [[ok patches'] fs2].
  cbn [fst snd] in Hss, Hsame, Hlen.
  assert (Hgoal : forall fs', snapshots fs' = snapshots fs2 ->
    exists snapshot,
      snapshots fs' !! sid = Some snapshot
      /\ length (s_patches snapshot) = length patches'
      /\ (forall p', p' ∈ patches' ->
            exists content,
              readFile fs (p_resource p') = Some content
              /\ mkEntry (p_id p') (p_resource p') content ∈ s_patches snapshot)).
  { intros fs' Hfs'. exists (mkSnapshot sid (snapshotEntries patches fs)).
    rewrite Hfs', Hss, Hsnap. cbn [snapshots set_snapshots s_patches].
    rewrite lookup_insert_eq. split; [done|]. split.
    - rewrite Hlen. by apply RunFacts.snapshotEntries_all_readable.
    - intros p' Hin. destruct (Hsame p' Hin) as (p & Hp & Hid & Hres).
      rewrite Forall_forall in Hread. destruct (Hread p Hp) as [c Hc].
      exists c. rewrite Hid, Hres. split; [done|].
      by apply snapshotEntries_complete. }
  destruct (js_lt _ _ && truthy sid).
  - pose proof (rollback_frame sid fs2) as (_ & _ & Hss3).
    destruct (rollback sid fs2) as [rs fs3]. by apply Hgoal.
  - by apply Hgoal.
Qed.

End PipelineFacts.

(* ===================================================================== *)
(** ** Further concrete runs *)
(* ===================================================================== *)

Module MoreRuns.
Import Grouper Scorer Validator RollbackManager Orchestrator PatchEngine Pipeline.
Import Spec Invariants Inputs MoreInputs.
Import GrouperInvariants ScorerBounds ValidatorFacts RollbackFacts.
Import StatisticsFacts RunFacts PatchEngineFacts PipelineFacts.


Lemma groups_consistent_witness :
  pair_group ∈ groups (groupFindings [pair_first; pair_second])
  /\ count pair_group = length (findings pair_group)
  /\ (exists rest, findings pair_group = representativeFinding pair_group :: rest)
  /\ Forall (fun f => generateGroupKey f
                      = generateGroupKey (representativeFinding pair_group))
            (findings pair_group)
  /\ g_id pair_group
     = "group-" +:+ generateGroupKey (representativeFinding pair_group)
  /\ g_title pair_group = title (representativeFinding pair_group)
  /\ g_category pair_group = category (representativeFinding pair_group)
  /\ g_severity pair_group = severity (representativeFinding pair_group).
Proof.
  assert (H : pair_group ∈ groups (groupFindings [pair_first; pair_second])).
  { vm_compute. left. }
  split; [exact H|].
  exact (groups_consistent [pair_first; pair_second] pair_group H).
Defined.

Lemma severity_monotone_witness :
  (severity_rank low <= severity_rank critical)%nat
  /\ (calculateExploitLikelihood (with_severity pivot_finding low)
      <= calculateExploitLikelihood (with_severity pivot_finding critical))%Q
  /\ (calculateBusinessImpact (with_severity pivot_finding low)
      <= calculateBusinessImpact (with_severity pivot_finding critical))%Q.
Proof.
  assert (H : (severity_rank low <= severity_rank critical)%nat) by (simpl; lia).
  split; [exact H|]. exact (severity_monotone pivot_finding low critical H).
Defined.


Lemma rollback_one_result_per_entry_witness :
  snapshots scribbled_disk !! snapshot_token = Some tokens_snapshot
  /\ (rollback snapshot_token scribbled_disk).1
     = (fun e => mkRollbackResult
                   (patchId e)
                   (bool_decide (e_resource e ∉ unwritable scribbled_disk)))
         <$> s_patches tokens_snapshot.
Proof.
  assert (H : snapshots scribbled_disk !! snapshot_token = Some tokens_snapshot)
    by reflexivity.
  split; [exact H|].
  exact (rollback_one_result_per_entry snapshot_token scribbled_disk
                                       tokens_snapshot H).
Defined.


Lemma rollback_stats_bounds_witness :
  history_ok rolled_back_disk
  /\ history_ok (rollback snapshot_token rolled_back_disk).2
  /\ (0 <= stats_successRate (getRollbackStats rolled_back_disk) <= 1)%Q.
Proof.
  assert (H : history_ok rolled_back_disk).
  { intros h Hh. vm_compute in Hh. injection Hh as <-.
    constructor; [reflexivity|constructor]. }
  split; [exact H|].
  exact (rollback_stats_bounds snapshot_token rolled_back_disk H).
Defined.



Lemma rollback_triggered_iff_validation_failed_witness :
  apply apply_with_rollback = true /\ dryRun apply_with_rollback = false
  /\ enableRollback apply_with_rollback = true
  /\ snapshotDirWritable plain_disk = true /\ truthy snapshot_token = true
  /\ (LogRollbackTriggered
        ∈ outcome_log (harden apply_with_rollback [] [tokens_patch; broken_patch]
                              snapshot_token plain_disk)
      <-> exists p, p ∈ [tokens_patch; broken_patch]
                    /\ passed (validatePatch p) = false).
Proof.
  repeat (split; [reflexivity|]).
  exact (rollback_triggered_iff_validation_failed
           apply_with_rollback [] [tokens_patch; broken_patch]
           snapshot_token plain_disk eq_refl eq_refl eq_refl eq_refl eq_refl).
Defined.


Lemma diff_reports_change_witness :
  before tokens_patch <> after tokens_patch
  /\ length (split_lines (before tokens_patch))
     = length (split_lines (after tokens_patch))
  /\ exists line,
       line ∈ diffLines (before tokens_patch) (after tokens_patch)
       /\ is_change line = true.
Proof.
  assert (H1 : before tokens_patch <> after tokens_patch) by discriminate.
  assert (H2 : length (split_lines (before tokens_patch))
               = length (split_lines (after tokens_patch))) by reflexivity.
  split; [exact H1|]. split; [exact H2|].
  exact (diff_reports_change (before tokens_patch) (after tokens_patch) H1 H2).
Defined.

Lemma tokens_template_keeps_resource : templates_keep_resource [tokens_template].
Proof.
  intros t f content p Ht%list_elem_of_singleton Hgen. subst t.
  unfold tokens_template, generatePatch in Hgen.
  destruct (includes content "server_tokens off"); [discriminate Hgen|].
  injection Hgen as <-. reflexivity.
Defined.

Lemma unchanged_disk_every_patch_has_entry_witness :
  templates_keep_resource [tokens_template]
  /\ apply apply_with_rollback = true /\ dryRun apply_with_rollback = false
  /\ enableRollback apply_with_rollback = true
  /\ match hardenOnDisk apply_with_rollback [tokens_template] [tokens_finding]
                        snapshot_token plain_disk with
     | Thrown fs' _ => fs' = plain_disk
     | Returned report fs' _ =>
         exists snapshot,
           snapshots fs' !! snapshot_token = Some snapshot
           /\ length (s_patches snapshot) = length (rp_patches report)
           /\ (forall p', p' ∈ rp_patches report ->
                 exists content,
                   readFile plain_disk (p_resource p') = Some content
                   /\ mkEntry (p_id p') (p_resource p') content
                        ∈ s_patches snapshot)
     end.
Proof.
  split; [exact tokens_template_keeps_resource|].
  repeat (split; [reflexivity|]).
  exact (unchanged_disk_every_patch_has_entry
           apply_with_rollback [tokens_template] [tokens_finding]
           snapshot_token plain_disk tokens_template_keeps_resource
           eq_refl eq_refl eq_refl).
Defined.

(** the run of the witness really generates and applies a patch *)
Example unchanged_disk_run_applies_one_patch :
  match hardenOnDisk apply_with_rollback [tokens_template] [tokens_finding]
                     snapshot_token plain_disk with
  | Returned report _ _ => patchedCount (statistics report) = 1%nat
  | Thrown _ _ => False
  end.
Proof. vm_compute. reflexivity. Qed.

End MoreRuns.
